(** * Detection visualisation and annotation export (vis.py)

    A shallow embedding of [src/vis.py]: the format normaliser
    [convert_from_cls_format], the label formatter [get_class_string], the
    keypoint renderer [vis_keypoints], the OpenCV renderer
    [vis_one_image_opencv], the identity mapper [id_map_func], the table
    builder [txt_file_func], the annotation writer [xml_create_func] and the
    plotting renderer and exporter [vis_one_image].

    Conventions of the embedding.
    - numpy floats are modelled by the rational they denote ([Q]); NaN and
      the infinities are not modelled.  Only comparisons, subtraction,
      multiplication and halving of such values occur in the code.
    - A Python [None] is [None : option _]; a Python exception is the
      [Raise] constructor of [result].
    - Drawing calls (cv2, matplotlib) are recorded as a list of drawing
      operations, in call order; the annotation file written and the path
      handed to [fig.savefig] are recorded in the outcome of the function
      (the creation of directories is not).
    - [np.argsort], [colormap] and the keypoint schema are collaborators
      that live outside the repository; they are taken through the
      interface [Collaborators]. *)

From Stdlib Require Import QArith Qminmax Qabs Lqa.
From Stdlib Require Import Sorting.Sorted Ascii.
From stdpp Require Import base list gmap strings pretty sorting.

Local Open Scope nat_scope.

#[local] Set Warnings "-clear-no-such-hyp".

(** ** Python exceptions as an error monad *)

Inductive exn : Set :=
| IndexError
| UnboundLocalError
| TypeError.

#[global] Instance exn_eq_dec : EqDecision exn.
Proof. solve_decision. Defined.

Inductive result (A : Type) : Type :=
| Ok (a : A)
| Raise (e : exn).
Arguments Ok {A} a.
Arguments Raise {A} e.

#[global] Instance result_ret : MRet result := @Ok.
#[global] Instance result_bind : MBind result := λ A B k r,
  match r with
  | Ok a => k a
  | Raise e => Raise e
  end.

(** [xs[i]] on a Python list: [IndexError] out of range (indices here are
    never negative: they come from [range] or from [np.argsort]). *)
Definition getitem {A} (xs : list A) (i : nat) : result A :=
  match xs !! i with
  | Some x => Ok x
  | None => Raise IndexError
  end.

(** A local variable that is only assigned on some paths: reading it
    before assignment raises [UnboundLocalError]. *)
Definition read_local {A} (v : option A) : result A :=
  match v with
  | Some x => Ok x
  | None => Raise UnboundLocalError
  end.

(** [for x in xs: body], threading the variables the body assigns. *)
Fixpoint for_each {A S} (body : A → S → result S) (xs : list A) (s : S)
  : result S :=
  match xs with
  | [] => Ok s
  | x :: xs' => s' ← body x s; for_each body xs' s'
  end.

(** ** Numbers *)

#[global] Instance Q_inhabited : Inhabited Q := populate 0%Q.

#[global] Instance Qlt_decision (x y : Q) : Decision (x < y)%Q :=
  match Qlt_le_dec x y with
  | left H => left H
  | right H => right (Qle_not_lt _ _ H)
  end.

#[global] Instance Qle_decision (x y : Q) : Decision (x <= y)%Q :=
  match Qlt_le_dec y x with
  | left H => right (Qlt_not_le _ _ H)
  | right H => left H
  end.

(** [int(x)]: truncation towards zero. *)
Definition py_int (x : Q) : Z := Z.quot (Qnum x) (Z.pos (Qden x)).

(** ** Format normaliser *)

(** [convert_from_cls_format(cls_boxes, cls_segms, cls_keyps)].
    [cls_boxes[j]] is the array (or empty list) of the boxes of class [j];
    [np.concatenate] of arrays of rows is list concatenation. *)
Definition convert_from_cls_format {B S K : Type}
    (cls_boxes : list (list B))
    (cls_segms : option (list (list S)))
    (cls_keyps : option (list (list K)))
  : option (list B) * option (list S) * option (list K) * list nat :=
  let box_list := filter (λ b, 0 < length b) cls_boxes in
  let boxes :=
    if decide (0 < length box_list) then Some (concat box_list) else None in
  let segms :=
    match cls_segms with
    | Some ss => Some (concat ss)
    | None => None
    end in
  let keyps :=
    match cls_keyps with
    | Some ks => Some (concat ks)
    | None => None
    end in
  let classes :=
    foldl (λ classes j, classes ++ replicate (length (cls_boxes !!! j)) j)
          [] (seq 0 (length cls_boxes)) in
  (boxes, segms, keyps, classes).

(** The total number of detections of a nested input. *)
Definition detection_count {B} (cls_boxes : list (list B)) : nat :=
  sum_list (length <$> cls_boxes).

(** The class sequence as the specification words it: class [j] repeated
    once per detection of class [j], classes in increasing order. *)
Definition classes_spec {B} (cls_boxes : list (list B)) : list nat :=
  concat (imap (λ j b, replicate (length b) j) cls_boxes).


(** ** Python string operations used by the module *)

Definition chars (s : string) : list ascii := String.list_ascii_of_string s.
Definition of_chars (l : list ascii) : string := String.string_of_list_ascii l.

(** [s.lstrip(cs)]: drop leading characters while they belong to [cs]. *)
Fixpoint lstrip (cs : string) (s : string) : string :=
  match s with
  | EmptyString => EmptyString
  | String c s' => if decide (c ∈ chars cs) then lstrip cs s' else s
  end.

(** [s[:-k]] for [k > 0]: the string without its last [k] characters
    (empty when [s] has at most [k] characters). *)
Definition drop_last (k : nat) (s : string) : string :=
  of_chars (take (length (chars s) - k) (chars s)).

(** [s.split(sep)] for a one-character separator. *)
Fixpoint split (sep : ascii) (s : string) : list string :=
  match s with
  | EmptyString => [EmptyString]
  | String c s' =>
      if decide (c = sep) then EmptyString :: split sep s'
      else match split sep s' with
           | f :: fs => String c f :: fs
           | [] => [String c EmptyString]
           end
  end.

(** [l[-1]] on a list of strings that is never empty here. *)
Definition last_item (l : list string) : string := default EmptyString (last l).

(** [os.path.basename(p)]: what follows the last ["/"]. *)
Definition basename (p : string) : string := last_item (split "/" p).

(** [s.rfind(c)], [None] standing for [-1]. *)
Definition rfind (c : ascii) (l : list ascii) : option nat :=
  match list_find (λ x, x = c) (reverse l) with
  | Some (k, _) => Some (length l - 1 - k)
  | None => None
  end.

(** [os.path.splitext(p)]: split at the last dot of the last path
    component, unless that component consists of leading dots only up to
    that dot. *)
Definition splitext (p : string) : string * string :=
  let l := chars p in
  let filenameIndex := match rfind "/" l with Some i => S i | None => 0 end in
  match rfind "." l with
  | Some dotIndex =>
      if decide (filenameIndex ≤ dotIndex
                 ∧ Exists (λ x, x ≠ "."%char)
                          (take (dotIndex - filenameIndex)
                                (drop filenameIndex l)))
      then (of_chars (take dotIndex l), of_chars (drop dotIndex l))
      else (p, EmptyString)
  | None => (p, EmptyString)
  end.

(** [os.path.join(a, b)]. *)
Definition path_join (a b : string) : string :=
  match b with
  | String "/" _ => b
  | _ =>
      match last (chars a) with
      | None => b
      | Some "/"%char => a +:+ b
      | Some _ => a +:+ "/" +:+ b
      end
  end.

(** ['{:0.2f}'.format(x)]: fixed point, two decimals, the exact value
    rounded to the nearest hundredth, ties to even. *)
Definition round_half_even (x : Q) : Z :=
  let n := Qnum x in
  let d := Z.pos (Qden x) in
  let q := (n / d)%Z in
  let r := (n mod d)%Z in
  if decide (2 * r < d)%Z then q
  else if decide (d < 2 * r)%Z then (q + 1)%Z
  else if Z.even q then q else (q + 1)%Z.

Definition two_digits (n : Z) : string :=
  (if decide (n < 10)%Z then "0" else EmptyString) +:+ pretty n.

Definition format_2f (x : Q) : string :=
  let h := round_half_even (Qabs x * 100) in
  (if decide (x < 0)%Q then "-" else EmptyString)
    +:+ pretty (h / 100)%Z +:+ "." +:+ two_digits (h mod 100)%Z.

(** ['{:d}'.format(n)]. *)
Definition format_d (n : nat) : string := pretty n.

(** ** Class label text *)

(** [get_class_string(class_index, score, dataset)]; [dataset] is [None]
    or carries its [classes] list. *)
Definition get_class_string (class_index : nat) (score : Q)
    (dataset : option (list string)) : result string :=
  class_text ←
    match dataset with
    | Some classes => getitem classes class_index
    | None => Ok ("id" +:+ format_d class_index)
    end;
  Ok (class_text +:+ lstrip "0" (" " +:+ format_2f score)).

(** The label text as the specification words it: the formatted score
    with its leading zero stripped, after the identity and a space. *)
Definition class_string_spec (class_text : string) (score : Q) : string :=
  class_text +:+ " " +:+ lstrip "0" (format_2f score).

(** ** Detections *)

(** A row of the [boxes] array: [x_min, y_min, x_max, y_max, score]. *)
Record Box : Type := mkBox {
  x_min : Q;
  y_min : Q;
  x_max : Q;
  y_max : Q;
  score : Q
}.

#[global] Instance Box_inhabited : Inhabited Box :=
  populate (mkBox 0 0 0 0 0).

(** A run-length encoded mask, as the mask codec consumes it.  The
    module never looks inside: a decoded mask is referred to by the index
    [i] of [masks[:, :, i]]. *)
Record Segm : Type := mkSegm {
  segm_size : nat * nat;
  segm_counts : string
}.

(** A column of a [kps] array of shape [(4, #keypoints)]: the rows are
    [x], [y], [logit], [prob]. *)
Record Joint : Type := mkJoint {
  jx : Q;
  jy : Q;
  logit : Q;
  prob : Q
}.

#[global] Instance Joint_inhabited : Inhabited Joint :=
  populate (mkJoint 0 0 0 0).

(** [kps]: one column per joint of the schema.  The array is taken to
    have the shape its docstring gives, a column for every joint of the
    schema: [kps[r, i]] is a total lookup. *)
Definition Kps : Type := list Joint.

Definition Color : Type := Q * Q * Q.

#[global] Instance Color_inhabited : Inhabited Color :=
  populate (0%Q, 0%Q, 0%Q).

(** The [boxes], [segms], [keypoints] arguments of the two entry points:
    [isinstance(boxes, list)] selects the per-class nested form. *)
Inductive detections : Type :=
| ClsFormat (cls_boxes : list (list Box))
            (cls_segms : option (list (list Segm)))
            (cls_keyps : option (list (list Kps)))
| FlatFormat (boxes : option (list Box))
             (segms : option (list Segm))
             (keypoints : option (list Kps)).

(** The four locals after the [isinstance] branch; [classes] is only
    assigned in the nested form ([None]: unbound). *)
Definition unpack (dets : detections)
  : option (list Box) * option (list Segm) * option (list Kps)
    * option (list nat) :=
  match dets with
  | ClsFormat cls_boxes cls_segms cls_keyps =>
      let '(boxes, segms, keyps, classes) :=
        convert_from_cls_format cls_boxes cls_segms cls_keyps in
      (boxes, segms, keyps, Some classes)
  | FlatFormat boxes segms keypoints => (boxes, segms, keypoints, None)
  end.

(** ** Collaborators outside the repository *)

(** [np.argsort] with its default [kind]: the indices that sort the
    array in ascending order.  numpy documents the default sort as not
    stable, so nothing is promised on equal keys.
    [colormap rgb] is detectron's palette and [get_keypoints] the joint
    names of the keypoint schema. *)
Class Collaborators : Type := {
  argsort : list Q → list nat;
  argsort_perm a : argsort a ≡ₚ seq 0 (length a);
  argsort_sorted a :
    StronglySorted (λ i j, (a !!! i <= a !!! j)%Q) (argsort a);
  colormap : bool → list Color;
  get_keypoints : list string
}.

(** ** Drawing operations *)

Inductive draw_op : Type :=
| CvRectangle (x0 y0 x1 y1 : Z)
    (** [vis_bbox]: [cv2.rectangle] between two integer corners *)
| CvClassLabel (x0 y0 : Z) (txt : string)
    (** [vis_class]: text plaque at an integer position *)
| PltRectangle (x y w h : Q)
    (** [ax.add_patch(plt.Rectangle((x, y), w, h, ...))] *)
| PltText (x y : Q) (txt : string)
    (** [ax.text(x, y, txt, ...)] *)
| MaskOverlay (i : nat) (slot : nat) (col : Color)
    (** mask [masks[..., i]] painted with colour [col], read from palette
        row [slot] *)
| LimbLine (p1 p2 : Q * Q) (color : nat)
    (** a line between two points in colour [colors[color]] *)
| JointDot (p : Q * Q) (color : nat)
    (** a joint marker in colour [colors[color]] *).

(** ** Keypoint skeleton *)

(** [keypoints.index(name)]; the schema provider is taken to list every
    name asked for. *)
Definition index (name : string) (keypoints : list string) : nat :=
  match list_find (λ k, k = name) keypoints with
  | Some (i, _) => i
  | None => length keypoints
  end.

Definition kp_connections (keypoints : list string) : list (nat * nat) :=
  [ (index "left_eye" keypoints, index "right_eye" keypoints);
    (index "left_eye" keypoints, index "nose" keypoints);
    (index "right_eye" keypoints, index "nose" keypoints);
    (index "right_eye" keypoints, index "right_ear" keypoints);
    (index "left_eye" keypoints, index "left_ear" keypoints);
    (index "right_shoulder" keypoints, index "right_elbow" keypoints);
    (index "right_elbow" keypoints, index "right_wrist" keypoints);
    (index "left_shoulder" keypoints, index "left_elbow" keypoints);
    (index "left_elbow" keypoints, index "left_wrist" keypoints);
    (index "right_hip" keypoints, index "right_knee" keypoints);
    (index "right_knee" keypoints, index "right_ankle" keypoints);
    (index "left_hip" keypoints, index "left_knee" keypoints);
    (index "left_knee" keypoints, index "left_ankle" keypoints);
    (index "right_shoulder" keypoints, index "left_shoulder" keypoints);
    (index "right_hip" keypoints, index "left_hip" keypoints) ].

(** [(kps[:2, a] + kps[:2, b]) / 2.0] *)
Definition mid_point (kps : Kps) (a b : nat) : Q * Q :=
  ((jx (kps !!! a) + jx (kps !!! b)) / 2,
   (jy (kps !!! a) + jy (kps !!! b)) / 2)%Q.

(** [np.minimum(kps[2, a], kps[2, b])] *)
Definition sc_mid (kps : Kps) (a b : nat) : Q :=
  Qmin (logit (kps !!! a)) (logit (kps !!! b)).

Definition joint_pos (kps : Kps) (i : nat) : Q * Q :=
  (jx (kps !!! i), jy (kps !!! i)).

(** The body of [for l in range(len(kp_lines))], shared by the two
    renderers: the limb, then the marker of each of its two joints. *)
Definition draw_limb (kps : Kps) (kp_thresh : Q) (l : nat)
    (line : nat * nat) : list draw_op :=
  let i1 := line.1 in
  let i2 := line.2 in
  let p1 := joint_pos kps i1 in
  let p2 := joint_pos kps i2 in
  (if decide (kp_thresh < logit (kps !!! i1)
              ∧ kp_thresh < logit (kps !!! i2))%Q
   then [LimbLine p1 p2 l] else [])
  ++ (if decide (kp_thresh < logit (kps !!! i1))%Q
      then [JointDot p1 l] else [])
  ++ (if decide (kp_thresh < logit (kps !!! i2))%Q
      then [JointDot p2 l] else []).

(** The two synthetic segments: mid-shoulder to nose, mid-shoulder to
    mid-hip. *)
Definition draw_mid_segments (dataset_keypoints : list string)
    (n_lines : nat) (kps : Kps) (kp_thresh : Q) : list draw_op :=
  let mid_shoulder :=
    mid_point kps (index "right_shoulder" dataset_keypoints)
                  (index "left_shoulder" dataset_keypoints) in
  let sc_mid_shoulder :=
    sc_mid kps (index "right_shoulder" dataset_keypoints)
               (index "left_shoulder" dataset_keypoints) in
  let mid_hip :=
    mid_point kps (index "right_hip" dataset_keypoints)
                  (index "left_hip" dataset_keypoints) in
  let sc_mid_hip :=
    sc_mid kps (index "right_hip" dataset_keypoints)
               (index "left_hip" dataset_keypoints) in
  let nose_idx := index "nose" dataset_keypoints in
  (if decide (kp_thresh < sc_mid_shoulder
              ∧ kp_thresh < logit (kps !!! nose_idx))%Q
   then [LimbLine mid_shoulder (joint_pos kps nose_idx) n_lines] else [])
  ++ (if decide (kp_thresh < sc_mid_shoulder ∧ kp_thresh < sc_mid_hip)%Q
      then [LimbLine mid_shoulder mid_hip (n_lines + 1)] else []).

Section renderers.
Context `{Collaborators}.

(** [vis_keypoints(img, kps, kp_thresh)]: the synthetic segments
    first, then the limbs. *)
Definition vis_keypoints (kps : Kps) (kp_thresh : Q) : list draw_op :=
  let dataset_keypoints := get_keypoints in
  let kp_lines := kp_connections dataset_keypoints in
  draw_mid_segments dataset_keypoints (length kp_lines) kps kp_thresh
  ++ concat (imap (draw_limb kps kp_thresh) kp_lines).

(** The keypoint block of [vis_one_image]: the limbs first, then the
    synthetic segments. *)
Definition plot_keypoints (kps : Kps) (kp_thresh : Q) : list draw_op :=
  let dataset_keypoints := get_keypoints in
  let kp_lines := kp_connections dataset_keypoints in
  concat (imap (draw_limb kps kp_thresh) kp_lines)
  ++ draw_mid_segments dataset_keypoints (length kp_lines) kps kp_thresh.

(** What the specification asks of the operations drawn for one
    keypoint set: a limb of the adjacency list, or a synthetic segment,
    is drawn exactly when the confidence of each of its endpoints (for a
    synthetic point: of both joints it is made of) exceeds the
    threshold; a joint marker is drawn exactly for a limb endpoint whose
    confidence exceeds it. *)
Definition skeleton_gated (kps : Kps) (kp_thresh : Q)
    (ops : list draw_op) : Prop :=
  let kp_lines := kp_connections get_keypoints in
  let rs := index "right_shoulder" get_keypoints in
  let ls := index "left_shoulder" get_keypoints in
  let rh := index "right_hip" get_keypoints in
  let lh := index "left_hip" get_keypoints in
  let nose := index "nose" get_keypoints in
  let seen i := (kp_thresh < logit (kps !!! i))%Q in
  (∀ p1 p2 c,
     LimbLine p1 p2 c ∈ ops
     ↔ (∃ i1 i2, kp_lines !! c = Some (i1, i2)
                  ∧ p1 = joint_pos kps i1 ∧ p2 = joint_pos kps i2
                  ∧ seen i1 ∧ seen i2)
       ∨ (c = 15 ∧ p1 = mid_point kps rs ls ∧ p2 = joint_pos kps nose
          ∧ seen rs ∧ seen ls ∧ seen nose)
       ∨ (c = 16 ∧ p1 = mid_point kps rs ls ∧ p2 = mid_point kps rh lh
          ∧ seen rs ∧ seen ls ∧ seen rh ∧ seen lh))
  ∧ (∀ p c,
       JointDot p c ∈ ops
       ↔ ∃ i1 i2, kp_lines !! c = Some (i1, i2)
                   ∧ ((p = joint_pos kps i1 ∧ seen i1)
                      ∨ (p = joint_pos kps i2 ∧ seen i2))).

(** *** Selection and ordering *)

Definition area (b : Box) : Q :=
  ((x_max b - x_min b) * (y_max b - y_min b))%Q.

(** [areas = ...; sorted_inds = np.argsort(-areas)] *)
Definition paint_order (boxes : list Box) : list nat :=
  argsort (Qopp <$> (area <$> boxes)).

(** [max(boxes[:, 4])] on a non-empty array. *)
Definition max_score (b : Box) (bs : list Box) : Q :=
  foldl (λ m b', Qmax m (score b')) (score b) bs.

(** [boxes is None or boxes.shape[0] == 0 or max(boxes[:, 4]) < thresh] *)
Definition nothing_to_render (boxes : option (list Box)) (thresh : Q)
  : bool :=
  match boxes with
  | None => true
  | Some [] => true
  | Some (b :: bs) => bool_decide (max_score b bs < thresh)%Q
  end.

(** *** The OpenCV renderer *)

(** What one call has drawn: for every detection that passed the score
    test, in paint order, its index and the operations drawn for it. *)
Definition canvas : Type := list (nat * list draw_op).

Record cv_state : Type := mkCvState {
  cv_im : canvas;
  cv_mask_color_id : nat
}.

Section opencv_loop.
Variables (boxes : list Box) (segms : option (list Segm))
          (keypoints : option (list Kps)) (classes : option (list nat)).
Variables (thresh kp_thresh : Q) (show_box : bool)
          (dataset : option (list string)) (show_class : bool).
Variable color_list : list Color.

(** The body of [for i in sorted_inds] in [vis_one_image_opencv]. *)
Definition opencv_body (i : nat) (st : cv_state) : result cv_state :=
  b ← getitem boxes i;
  if decide (score b < thresh)%Q then Ok st
  else
    let box_ops :=
      if show_box
      then [CvRectangle
              (py_int (x_min b)) (py_int (y_min b))
              (py_int (x_min b + (x_max b - x_min b)))
              (py_int (y_min b + (y_max b - y_min b)))]
      else [] in
    class_ops ←
      (if show_class
       then cls ← read_local classes;
            c ← getitem cls i;
            class_str ← get_class_string c (score b) dataset;
            Ok [CvClassLabel (py_int (x_min b)) (py_int (y_min b - 2))
                             class_str]
       else Ok []);
    let '(mask_ops, mask_color_id) :=
      match segms with
      | Some ss =>
          if decide (i < length ss)
          then
            let slot := cv_mask_color_id st `mod` length color_list in
            ([MaskOverlay i slot (color_list !!! slot)],
             cv_mask_color_id st + 1)
          else ([], cv_mask_color_id st)
      | None => ([], cv_mask_color_id st)
      end in
    let kp_ops :=
      match keypoints with
      | Some ks =>
          if decide (i < length ks)
          then vis_keypoints (ks !!! i) kp_thresh
          else []
      | None => []
      end in
    Ok {| cv_im := cv_im st
                   ++ [(i, box_ops ++ class_ops ++ mask_ops ++ kp_ops)];
          cv_mask_color_id := mask_color_id |}.
End opencv_loop.

(** The rendering pass of [vis_one_image_opencv]: the paint order and
    the loop over it, from [mask_color_id = 0]. *)
Definition opencv_paint (boxes : list Box) (segms : option (list Segm))
    (keypoints : option (list Kps)) (classes : option (list nat))
    (thresh kp_thresh : Q) (show_box : bool)
    (dataset : option (list string)) (show_class : bool)
  : result cv_state :=
  let color_list := colormap false in
  let sorted_inds := paint_order boxes in
  for_each
    (opencv_body boxes segms keypoints classes thresh kp_thresh
                 show_box dataset show_class color_list)
    sorted_inds
    {| cv_im := []; cv_mask_color_id := 0 |}.

(** [vis_one_image_opencv(im, boxes, segms, keypoints, thresh,
    kp_thresh, show_box, dataset, show_class)]: the operations drawn on
    [im]; the early exit returns [im] untouched. *)
Definition vis_one_image_opencv (dets : detections)
    (thresh kp_thresh : Q) (show_box : bool)
    (dataset : option (list string)) (show_class : bool)
  : result canvas :=
  let '(boxes, segms, keypoints, classes) := unpack dets in
  if nothing_to_render boxes thresh then Ok []
  else
    st ← opencv_paint (default [] boxes) segms keypoints classes
                      thresh kp_thresh show_box dataset show_class;
    Ok (cv_im st).
End renderers.

(** ** Identity mapper *)

Definition id_list : list string :=
  ["id12"; "id13"; "id14"; "id15"; "id18"; "id19"; "id26"].

(** [id_map_func(rd_id_list)]: [index] is the dict built by
    [enumerate(id_list, 1)]; [index.get] yields [None] on a missing key.
    (The list comprehension on the line before the [map] is evaluated and
    discarded.) *)
Definition id_map_func (rd_id_list : list nat) : list (option string) :=
  let index : gmap nat string :=
    list_to_map (zip (seq 1 (length id_list)) id_list) in
  (λ x, index !! x) <$> rd_id_list.

(** ** Annotation table and annotation record *)

(** A row of the table built by [txt_file_func]: image name, label and
    the four box coordinates.  The text numpy makes of a coordinate is not
    modelled: a cell keeps the number. *)
Record txt_row : Type := mkRow {
  row_image : string;
  row_label : option string;
  row_box : Q * Q * Q * Q
}.

(** [txt_file_func(txt_image, txt_label_list, txt_boxes)].
    [temp_txt_total] is first assigned in the iteration [i == 0]. *)
Definition txt_file_func (txt_image : string)
    (txt_label_list : list (option string)) (txt_boxes : list Box)
  : result (list txt_row) :=
  temp_txt_total ←
    for_each
      (λ i (temp_txt_total : option (list txt_row)),
         temp_label_i ← getitem txt_label_list i;
         b ← getitem txt_boxes i;
         let temp_text :=
           {| row_image := txt_image;
              row_label := temp_label_i;
              row_box := (x_min b, y_min b, x_max b, y_max b) |} in
         if decide (i = 0) then Ok (Some [temp_text])
         else total ← read_local temp_txt_total;
              Ok (Some (total ++ [temp_text])))
      (seq 0 (length txt_boxes))
      None;
  read_local temp_txt_total.

(** An [object] element of the annotation record. *)
Record xml_object : Type := mkObject {
  obj_name : string;
  obj_pose : string;
  obj_truncated : string;
  obj_difficult : string;
  obj_bndbox : Q * Q * Q * Q
}.

(** The annotation record: the children of the [annotation] root. *)
Record annotation : Type := mkAnnotation {
  ann_folder : string;
  ann_filename : string;
  ann_path : string;
  ann_database : string;
  ann_width : string;
  ann_height : string;
  ann_depth : string;
  ann_segmented : string;
  ann_objects : list xml_object
}.

(** [doc.createTextNode(data)]: minidom raises [TypeError] unless [data]
    is a string; the cell of a label that [index.get] left at [None] is
    not one. *)
Definition createTextNode (data : option string) : result string :=
  match data with
  | Some txt => Ok txt
  | None => Raise TypeError
  end.

(** [xml_create_func(xml_path, image_folder, image_name, image_path_ab,
    image_size, temp_text)]: the path of the file written and the record
    written to it.  [txt_file_name] is assigned by the loop over the rows
    only. *)
Definition xml_create_func (xml_path image_folder image_name
    image_path_ab : string) (image_size : list string)
    (temp_text : list txt_row) : result (string * annotation) :=
  width ← getitem image_size 1;
  height ← getitem image_size 0;
  depth ← getitem image_size 2;
  '(objects, txt_file_name) ←
    for_each
      (λ txt_row '(objects, _),
         txt_name ← createTextNode (row_label txt_row);
         Ok (objects ++ [ {| obj_name := txt_name;
                             obj_pose := "Unspecified";
                             obj_truncated := "0";
                             obj_difficult := "0";
                             obj_bndbox := row_box txt_row |} ],
             Some (row_image txt_row)))
      temp_text
      ([], None);
  txt_file_name ← read_local txt_file_name;
  let temp_xmlfile :=
    xml_path +:+ "/" +:+ drop_last 4 txt_file_name +:+ ".xml" in
  Ok (temp_xmlfile,
      {| ann_folder := image_folder;
         ann_filename := image_name;
         ann_path := image_path_ab;
         ann_database := "Unknown";
         ann_width := width;
         ann_height := height;
         ann_depth := depth;
         ann_segmented := "0";
         ann_objects := objects |}).

(** ** The plotting renderer and exporter *)

(** What [vis_one_image] has done when it reaches its last statements:
    the annotation file [xml_create_func] wrote and the record in it, the
    figure drawn, and the path [fig.savefig] is called with.  What
    matplotlib makes of that call is not part of the embedding: it adds
    [.png] to a path without extension and raises [ValueError] on an
    extension that names no format it can write. *)
Record outputs : Type := mkOutputs {
  xml_file : string;
  xml_doc : annotation;
  savefig_path : string;
  figure : canvas
}.

Record plt_state : Type := mkPltState {
  temp_boxes : list Box;
  temp_classify_id_list : list nat;
  ax : canvas;
  mask_color_id : nat;
  color_list : list Color
}.

(** [color_mask[c] = color_mask[c] * (1 - w_ratio) + w_ratio], for the
    three channels, with [w_ratio = .4]. *)
Definition lighten (c : Color) : Color :=
  let w_ratio := 0.4%Q in
  let f x := (x * (1 - w_ratio) + w_ratio)%Q in
  (f c.1.1, f c.1.2, f c.2).

Definition xml_path : string := "/data/yang/detectron/output/xml_files".
Definition image_path : string := "/data/yang/detectron/output/xml_files/".
Definition images_folder : string := "xml_files".

Section exporter.
Context `{Collaborators}.

Section plt_loop.
Variables (boxes : list Box) (segms : option (list Segm))
          (keypoints : option (list Kps)) (classes : option (list nat)).
Variables (thresh kp_thresh : Q)
          (dataset : option (list string)) (show_class : bool).

(** The body of [for i in sorted_inds] in [vis_one_image].
    [color_mask] is a view of a row of [color_list]: lightening it
    writes the palette row. *)
Definition plt_body (i : nat) (st : plt_state) : result plt_state :=
  b ← getitem boxes i;
  if decide (score b < thresh)%Q then Ok st
  else
    let temp_boxes := temp_boxes st ++ [b] in
    let box_ops :=
      [PltRectangle (x_min b) (y_min b)
                    (x_max b - x_min b) (y_max b - y_min b)] in
    '(temp_classify_id_list, class_ops) ←
      (if show_class
       then cls ← read_local classes;
            c ← getitem cls i;
            class_str ← get_class_string c (score b) dataset;
            Ok (temp_classify_id_list st ++ [c],
                [PltText (x_min b) (y_min b - 2) class_str])
       else Ok (temp_classify_id_list st, []));
    let '(mask_ops, mask_color_id, color_list) :=
      match segms with
      | Some ss =>
          if decide (i < length ss)
          then
            let slot := mask_color_id st `mod` length (color_list st) in
            let color_mask := lighten (color_list st !!! slot) in
            ([MaskOverlay i slot color_mask],
             mask_color_id st + 1,
             <[slot := color_mask]> (color_list st))
          else ([], mask_color_id st, color_list st)
      | None => ([], mask_color_id st, color_list st)
      end in
    let kp_ops :=
      match keypoints with
      | Some ks =>
          if decide (i < length ks)
          then plot_keypoints (ks !!! i) kp_thresh
          else []
      | None => []
      end in
    Ok {| temp_boxes := temp_boxes;
          temp_classify_id_list := temp_classify_id_list;
          ax := ax st
                ++ [(i, box_ops ++ class_ops ++ mask_ops ++ kp_ops)];
          mask_color_id := mask_color_id;
          color_list := color_list |}.
End plt_loop.

(** The rendering pass of [vis_one_image]: the paint order ([[]] when
    [boxes is None]) and the loop over it, from the placeholder row of
    [temp_boxes], [mask_color_id = 0] and a fresh palette. *)
Definition plt_paint (boxes : option (list Box))
    (segms : option (list Segm)) (keypoints : option (list Kps))
    (classes : option (list nat)) (thresh kp_thresh : Q)
    (dataset : option (list string)) (show_class : bool)
  : result plt_state :=
  let palette :=
    (λ c : Color, (c.1.1 / 255, c.1.2 / 255, c.2 / 255)%Q)
      <$> colormap true in
  let sorted_inds :=
    match boxes with
    | None => []
    | Some bs => paint_order bs
    end in
  for_each
    (plt_body (default [] boxes) segms keypoints classes
              thresh kp_thresh dataset show_class)
    sorted_inds
    {| temp_boxes := [mkBox 100 200 400 500 0.8];
       temp_classify_id_list := [];
       ax := [];
       mask_color_id := 0;
       color_list := palette |}.

(** [vis_one_image(im, im_name, output_dir, boxes, segms, keypoints,
    thresh, kp_thresh, dpi, box_alpha, dataset, show_class, ext,
    out_when_no_box)].  [im] is given by its shape
    [(height, width, depth)].  [Ok None]: the early [return], nothing
    written.  [Ok (Some o)]: [xml_create_func] has returned, the
    annotation file written, and [fig.savefig] is called, the last
    statement but one.  [Raise e]: an exception leaves the function
    before [xml_create_func] opens the annotation file, so before
    anything is written. *)
Definition vis_one_image (im : nat * nat * nat) (im_name output_dir : string)
    (dets : detections) (thresh kp_thresh : Q)
    (dataset : option (list string)) (show_class out_when_no_box : bool)
  : result (option outputs) :=
  let '(boxes, segms, keypoints, classes) := unpack dets in
  if nothing_to_render boxes thresh && negb out_when_no_box then Ok None
  else
    st ← plt_paint boxes segms keypoints classes thresh kp_thresh
                   dataset show_class;
    let temp_boxes := drop 1 (temp_boxes st) in
    let image_name := last_item (split "/" im_name) in
    let label_list := id_map_func (temp_classify_id_list st) in
    temp_text_total ← txt_file_func image_name label_list temp_boxes;
    let image_size_ys := [pretty im.1.1; pretty im.1.2; pretty im.2] in
    let image_path_abs :=
      image_path +:+ images_folder +:+ "/" +:+ image_name in
    '(temp_xmlfile, doc) ←
      xml_create_func xml_path images_folder image_name image_path_abs
                      image_size_ys temp_text_total;
    let output_name :=
      (splitext (basename im_name)).1 +:+ (splitext (basename im_name)).2 in
    Ok (Some {| xml_file := temp_xmlfile;
                xml_doc := doc;
                savefig_path := path_join output_dir output_name;
                figure := ax st |}).
End exporter.

(** ** Vocabulary of the properties *)

(** The detections a canvas shows, in the order they were painted. *)
Definition rendered (c : canvas) : list nat := c.*1.

(** The masks painted on a canvas, in order: detection index, palette
    row and colour. *)
Definition mask_of_op (op : draw_op) : option (nat * nat * Color) :=
  match op with
  | MaskOverlay i slot col => Some (i, slot, col)
  | _ => None
  end.

Definition masks_painted (c : canvas) : list (nat * nat * Color) :=
  omap mask_of_op (concat (c.*2)).

(** Detection [i] passes the score test: the loops skip it when
    [score < thresh]. *)
Definition passes (boxes : list Box) (thresh : Q) (i : nat) : Prop :=
  (thresh <= score (boxes !!! i))%Q.

#[global] Instance passes_dec boxes thresh i : Decision (passes boxes thresh i).
Proof. unfold passes. apply _. Defined.

(** Detection [i] has a mask: [segms is not None and len(segms) > i]. *)
Definition has_mask (segms : option (list Segm)) (i : nat) : Prop :=
  match segms with
  | Some ss => i < length ss
  | None => False
  end.

#[global] Instance has_mask_dec segms i : Decision (has_mask segms i).
Proof. destruct segms; simpl; apply _. Defined.

(** The flat list of the detections an entry point is called with
    (empty when [boxes is None]). *)
Definition detected_boxes (dets : detections) : list Box :=
  default [] (unpack dets).1.1.1.

(** The four coordinates of a box, [boxes[i][:4]]. *)
Definition box_coords (b : Box) : Q * Q * Q * Q :=
  (x_min b, y_min b, x_max b, y_max b).


(** The palette of [vis_one_image] after [n_masks] masks have been
    painted from the palette [palette]: the pass writes the lightened
    colour back into the row it read, so row [r] has been lightened once
    for every mask that read it. *)
Definition palette_after (n_masks : nat) (palette : list Color)
  : list Color :=
  imap (λ r c,
          Nat.iter (n_masks / length palette
                    + (if decide (r < n_masks `mod` length palette)
                       then 1 else 0))
                   lighten c)
       palette.

(** Operations none of which paints a mask. *)
Definition no_mask (ops : list draw_op) : Prop :=
  Forall (λ op, mask_of_op op = None) ops.

(** ** Stand-ins for the collaborators *)

(** Insertion of index [i] into a list of indices sorted by key. *)
Fixpoint insert_index (a : list Q) (i : nat) (inds : list nat) : list nat :=
  match inds with
  | [] => [i]
  | j :: inds' =>
      if decide (a !!! i <= a !!! j)%Q then i :: inds
      else j :: insert_index a i inds'
  end.

(** Insertion sort of the indices [order] by key: among equal keys the
    indices keep the order they have in [order]. *)
Definition insertion_argsort (order : list nat) (a : list Q) : list nat :=
  foldr (insert_index a) [] order.

(** *** The sort behind [np.argsort]

    [np.argsort] called without [kind] runs numpy's quicksort for index
    arrays ([aquicksort] in [npysort/quicksort]): an introsort that takes
    the median of three as pivot, partitions parts of more than seventeen
    entries, finishes each smaller part by insertion sort, and falls back
    on heap sort when the recursion gets deeper than twice the binary
    logarithm of the length.  It is written out here on the index array
    [tosort] and the keys [v], place by place; every loop is given its
    number of iterations as fuel. *)

Module npysort.
Section aquicksort.
Variable v : list Q.













End aquicksort.
End npysort.


(** The joint names of the COCO person schema. *)
Definition coco_keypoints : list string :=
  ["nose"; "left_eye"; "right_eye"; "left_ear"; "right_ear";
   "left_shoulder"; "right_shoulder"; "left_elbow"; "right_elbow";
   "left_wrist"; "right_wrist"; "left_hip"; "right_hip";
   "left_knee"; "right_knee"; "left_ankle"; "right_ankle"].

(** A three-row palette, in either channel order. *)
Definition small_palette (rgb : bool) : list Color :=
  if rgb
  then [(0, 114, 189); (217, 83, 25); (237, 177, 32)]%Q
  else [(189, 114, 0); (25, 83, 217); (32, 177, 237)]%Q.

(** ** Sample inputs *)

(** One detection of class 1 with score 0.95, in the nested form. *)
Definition one_detection : detections :=
  ClsFormat [[]; [mkBox 10 20 110 220 0.95]] None None.

(** One detection with score 0.5, in the flat form. *)
Definition one_low_detection : detections :=
  FlatFormat (Some [mkBox 0 0 10 10 0.5]) None None.

(** Three detections of areas 50, 10 and 30, with scores 0.9 (the
    threshold used below), 0.5 and 0.95, of classes 1, 1 and 2. *)
Definition three_boxes : list Box :=
  [mkBox 0 0 10 5 0.9; mkBox 0 0 5 2 0.5; mkBox 0 0 6 5 0.95].

Definition three_detections : detections :=
  ClsFormat [[]; take 2 three_boxes; drop 2 three_boxes] None None.

Definition three_segms : list Segm :=
  [mkSegm (8, 8) "a"; mkSegm (8, 8) "b"; mkSegm (8, 8) "c"].

(** Four detections with masks, of decreasing area, all above 0.9. *)
Definition four_boxes : list Box :=
  [mkBox 0 0 10 10 0.95; mkBox 0 0 9 9 0.95; mkBox 0 0 8 8 0.95;
   mkBox 0 0 7 7 0.95].

Definition four_segms : list Segm :=
  three_segms ++ [mkSegm (8, 8) "d"].


(** ** Vocabulary of the further properties *)

(** The elements of a per-class nested list in flat order, each with the
    index of the class list it comes from. *)
Definition labelled {X} (xss : list (list X)) : list (nat * X) :=
  concat (imap (λ j xs, (j,.) <$> xs) xss).

(** The row [txt_file_func] makes of a label and a box. *)
Definition table_row (txt_image : string) (label : option string) (b : Box)
  : txt_row :=
  {| row_image := txt_image; row_label := label; row_box := box_coords b |}.

(** The [object] element [xml_create_func] makes of a row. *)
Definition object_of_row (r : txt_row) : xml_object :=
  {| obj_name := default EmptyString (row_label r);
     obj_pose := "Unspecified";
     obj_truncated := "0";
     obj_difficult := "0";
     obj_bndbox := row_box r |}.

(** The label [id_map_func] gives a class index. *)
Definition label_of (c : nat) : option string :=
  if decide (1 ≤ c ≤ 7) then id_list !! (c - 1) else None.


(** * Properties *)

(** ** Format normaliser: properties *)

Section normaliser.
Context {B : Type}.
Implicit Types cls_boxes : list (list B).

Lemma classes_loop_spec cls_boxes pre acc :
  foldl (λ classes j,
           classes ++ replicate (length ((pre ++ cls_boxes) !!! j)) j)
        acc (seq (length pre) (length cls_boxes))
  = acc ++ concat (imap (λ j b, replicate (length b) (length pre + j))
                       cls_boxes).
Proof.
  revert pre acc. induction cls_boxes as [|b bs IH]; intros pre acc.
  - simpl. by rewrite app_nil_r.
  - cbn [length seq foldl imap concat].
    replace (pre ++ b :: bs) with ((pre ++ [b]) ++ bs)
      by (by rewrite <- app_assoc).
    replace (S (length pre)) with (length (pre ++ [b]))
      by (rewrite length_app; simpl; lia).
    rewrite IH.
    rewrite <- app_assoc. f_equal.
    rewrite list_lookup_total_alt.
    rewrite lookup_app_l by (rewrite !length_app; simpl; lia).
    rewrite lookup_app_r by lia.
    rewrite Nat.sub_diag. simpl.
    rewrite Nat.add_0_r. f_equal. f_equal.
    apply imap_ext. intros j x _. simpl.
    f_equal. rewrite length_app. simpl. lia.
Qed.

Lemma concat_nonempty_filter (l : list (list B)) :
  concat (filter (λ b, 0 < length b) l) = concat l.
Proof.
  induction l as [|b bs IH]; [done|].
  rewrite filter_cons. case_decide.
  - simpl. by rewrite IH.
  - destruct b; simpl in *; [done | lia].
Qed.

Lemma length_concat_sum (l : list (list B)) :
  length (concat l) = detection_count l.
Proof.
  unfold detection_count.
  induction l as [|b bs IH]; [done|].
  simpl. rewrite length_app. by rewrite IH.
Qed.

Lemma length_classes_spec_from n cls_boxes :
  length (concat (imap (λ j b, replicate (length b) (n + j)) cls_boxes))
  = detection_count cls_boxes.
Proof.
  unfold detection_count.
  revert n. induction cls_boxes as [|b bs IH]; intros n; [done|].
  simpl. rewrite length_app, length_replicate. f_equal.
  erewrite imap_ext; [apply (IH (S n))|].
  intros j x _. simpl. f_equal. lia.
Qed.

Lemma classes_loop_classes_spec cls_boxes :
  foldl (λ classes j, classes ++ replicate (length (cls_boxes !!! j)) j)
        [] (seq 0 (length cls_boxes))
  = classes_spec cls_boxes.
Proof.
  pose proof (classes_loop_spec cls_boxes [] []) as E.
  simpl in E. exact E.
Qed.

Lemma no_nonempty_class cls_boxes :
  filter (λ b, 0 < length b) cls_boxes = []
  ↔ Forall (λ b, length b = 0) cls_boxes.
Proof.
  induction cls_boxes as [|b bs IH]; [by split; constructor|].
  rewrite filter_cons. case_decide as Hb.
  - split; [done|]. intros Hall. apply Forall_cons_1 in Hall as [Hb0 _]. lia.
  - rewrite IH. split.
    + intros Hall. constructor; [lia | done].
    + intros Hall. by apply Forall_cons_1 in Hall as [_ ?].
Qed.
End normaliser.

(** C6. [convert_from_cls_format] returns the class index sequence that
    repeats each class index once per detection of that class, in class
    order, and whose length is the total detection count (and the length
    of [boxes] when there is one); [boxes] is [None] exactly when every
    class has an empty box list, and is otherwise the concatenation of the
    class lists; [segms] and [keyps] are [None] exactly when the nested
    input was absent, and a present input whose class lists are all empty
    gives the empty list, not [None]. *)
Theorem convert_from_cls_format_spec {B S K : Type}
    (cls_boxes : list (list B)) (cls_segms : option (list (list S)))
    (cls_keyps : option (list (list K))) :
  let '(boxes, segms, keyps, classes) :=
    convert_from_cls_format cls_boxes cls_segms cls_keyps in
  classes = classes_spec cls_boxes
  ∧ length classes = detection_count cls_boxes
  ∧ (boxes = None ↔ Forall (λ b, length b = 0) cls_boxes)
  ∧ (∀ bs, boxes = Some bs →
           bs = concat cls_boxes ∧ length bs = length classes)
  ∧ (segms = None ↔ cls_segms = None)
  ∧ (keyps = None ↔ cls_keyps = None)
  ∧ (∀ ss, cls_segms = Some ss → Forall (λ s, s = []) ss → segms = Some [])
  ∧ (∀ ks, cls_keyps = Some ks → Forall (λ k, k = []) ks → keyps = Some []).
Proof.
  unfold convert_from_cls_format.
  rewrite classes_loop_classes_spec.
  assert (Hlen : length (classes_spec cls_boxes) = detection_count cls_boxes).
  { unfold classes_spec.
    rewrite <- (length_classes_spec_from 0 cls_boxes). done. }
  assert (Hempty : ∀ X (l : list (list X)), Forall (λ s, s = []) l → concat l = []).
  { intros X l Hall. induction Hall as [|x l -> _ IH]; [done|]. done. }
  split; [done|]. split; [done|].
  split.
  { rewrite <- no_nonempty_class. case_decide as Hne.
    - split; [done|]. intros E. rewrite E in Hne. simpl in Hne. lia.
    - split; [|done]. intros _.
      destruct (filter _ cls_boxes); [done|]. simpl in Hne. lia. }
  split.
  { intros bs. case_decide; [|done]. intros [= <-].
    rewrite concat_nonempty_filter. split; [done|].
    by rewrite length_concat_sum, Hlen. }
  split; [by destruct cls_segms|].
  split; [by destruct cls_keyps|].
  split.
  - intros ss -> Hall. by rewrite Hempty.
  - intros ks -> Hall. by rewrite Hempty.
Qed.

(** ** Identity mapper: properties *)

Lemma id_map_func_fmap (rd_id_list : list nat) :
  id_map_func rd_id_list
  = (λ i, if decide (1 ≤ i ≤ 7) then id_list !! (i - 1) else None)
      <$> rd_id_list.
Proof.
  unfold id_map_func. apply list_fmap_ext. intros _ i _.
  case_decide as Hi.
  - assert (i = 1 ∨ i = 2 ∨ i = 3 ∨ i = 4 ∨ i = 5 ∨ i = 6 ∨ i = 7)
      as Hcases by lia.
    destruct Hcases as [->|[->|[->|[->|[->|[->| ->]]]]]]; by vm_compute.
  - apply not_elem_of_list_to_map. simpl.
    rewrite !not_elem_of_cons. rewrite elem_of_nil.
    repeat split; lia.
Qed.

(** C5, as the code has it.  [id_map_func] is a positional lookup in the
    seven-entry vocabulary, indexed from 1: a class index [i] in [1..7]
    yields the [i]-th entry; a class index outside [1..7] (0 included)
    yields [None] in its position.  No error is raised: the output has
    one cell per input, whatever the input. *)
Theorem id_map_func_lookup (rd_id_list : list nat) :
  length (id_map_func rd_id_list) = length rd_id_list
  ∧ ∀ k i, rd_id_list !! k = Some i →
      id_map_func rd_id_list !! k
      = Some (if decide (1 ≤ i ≤ 7) then id_list !! (i - 1) else None)
      ∧ (1 ≤ i ≤ 7 → is_Some (id_list !! (i - 1)))
      ∧ (¬ 1 ≤ i ≤ 7 → id_map_func rd_id_list !! k = Some None).
Proof.
  rewrite id_map_func_fmap. split; [by rewrite length_fmap|].
  intros k i Hk. rewrite list_lookup_fmap, Hk. simpl.
  split; [done|]. split.
  - intros Hi. apply lookup_lt_is_Some. simpl. lia.
  - intros Hi. by rewrite decide_False.
Qed.

(** C5, a class index outside the table: the mapper returns, with [None]
    in the positions of the indices 0 and 8. *)
Lemma id_map_func_unmapped_returns :
  id_map_func [1; 0; 8] = [Some "id12"; None; None].
Proof. by vm_compute. Qed.

(** ** Class label text: properties *)

Lemma lstrip_leading_space (cs s : string) :
  " "%char ∉ chars cs → lstrip cs (" " +:+ s) = " " +:+ s.
Proof. intros Hcs. simpl. by rewrite decide_False. Qed.

Lemma get_class_string_unstripped (class_index : nat) (score : Q) :
  get_class_string class_index score None
  = Ok ("id" +:+ format_d class_index +:+ " " +:+ format_2f score).
Proof. reflexivity. Qed.

(** C7, at the score 0.9.  The code formats the score with the space in
    front of it and strips zeros from the left of that text, which begins
    with the space: nothing is stripped, and the label reads ["id3 0.90"].
    Stripping the zero of the formatted score itself gives ["id3 .90"]. *)
Theorem get_class_string_score_090 :
  get_class_string 3 0.9 None = Ok "id3 0.90"
  ∧ class_string_spec "id3" 0.9 = "id3 .90"
  ∧ format_2f 0.9 = "0.90".
Proof. by vm_compute. Qed.

(** ** Keypoint skeleton: properties *)

Lemma Qlt_min_iff (t a b : Q) : (t < Qmin a b ↔ t < a ∧ t < b)%Q.
Proof. apply Q.min_glb_lt_iff. Qed.

Lemma elem_of_concat_imap {A B} (f : nat → A → list B) (l : list A) (y : B) :
  y ∈ concat (imap f l) ↔ ∃ i x, l !! i = Some x ∧ y ∈ f i x.
Proof.
  revert f. induction l as [|a l IH]; intros f; simpl.
  - rewrite elem_of_nil. split; [done|]. by intros (i & x & ? & _).
  - rewrite elem_of_app, IH. split.
    + intros [Hy|(i & x & Hx & Hy)].
      * by exists 0, a.
      * by exists (S i), x.
    + intros (i & x & Hx & Hy). destruct i as [|i].
      * left. by injection Hx as ->.
      * right. by exists i, x.
Qed.

Lemma LimbLine_in_draw_limb kps th l i1 i2 p1 p2 c :
  LimbLine p1 p2 c ∈ draw_limb kps th l (i1, i2)
  ↔ c = l ∧ p1 = joint_pos kps i1 ∧ p2 = joint_pos kps i2
    ∧ (th < logit (kps !!! i1))%Q ∧ (th < logit (kps !!! i2))%Q.
Proof.
  unfold draw_limb. simpl.
  rewrite !elem_of_app.
  repeat (destruct (decide _));
    rewrite ?list_elem_of_singleton, ?elem_of_nil; naive_solver.
Qed.

Lemma JointDot_in_draw_limb kps th l i1 i2 p c :
  JointDot p c ∈ draw_limb kps th l (i1, i2)
  ↔ c = l ∧ ((p = joint_pos kps i1 ∧ (th < logit (kps !!! i1))%Q)
             ∨ (p = joint_pos kps i2 ∧ (th < logit (kps !!! i2))%Q)).
Proof.
  unfold draw_limb. simpl.
  rewrite !elem_of_app.
  repeat (destruct (decide _));
    rewrite ?list_elem_of_singleton, ?elem_of_nil; naive_solver.
Qed.

Lemma LimbLine_in_draw_mid_segments names n kps th p1 p2 c :
  let rs := index "right_shoulder" names in
  let ls := index "left_shoulder" names in
  let rh := index "right_hip" names in
  let lh := index "left_hip" names in
  let nose := index "nose" names in
  LimbLine p1 p2 c ∈ draw_mid_segments names n kps th
  ↔ (c = n ∧ p1 = mid_point kps rs ls ∧ p2 = joint_pos kps nose
     ∧ (th < logit (kps !!! rs))%Q ∧ (th < logit (kps !!! ls))%Q
     ∧ (th < logit (kps !!! nose))%Q)
    ∨ (c = n + 1 ∧ p1 = mid_point kps rs ls ∧ p2 = mid_point kps rh lh
       ∧ (th < logit (kps !!! rs))%Q ∧ (th < logit (kps !!! ls))%Q
       ∧ (th < logit (kps !!! rh))%Q ∧ (th < logit (kps !!! lh))%Q).
Proof.
  intros rs ls rh lh nose. unfold draw_mid_segments, sc_mid.
  fold rs ls rh lh nose.
  rewrite elem_of_app.
  repeat (destruct (decide _));
    rewrite ?list_elem_of_singleton, ?elem_of_nil;
    rewrite ?Qlt_min_iff in *; naive_solver lia.
Qed.

Lemma JointDot_in_draw_mid_segments names n kps th p c :
  JointDot p c ∉ draw_mid_segments names n kps th.
Proof.
  unfold draw_mid_segments. rewrite elem_of_app.
  repeat (destruct (decide _));
    rewrite ?list_elem_of_singleton, ?elem_of_nil; naive_solver.
Qed.

Section keypoint_props.
Context `{Collaborators}.

Lemma kp_lines_lookup_lt c line :
  kp_connections get_keypoints !! c = Some line → c < 15.
Proof. intros Hc. by apply lookup_lt_Some in Hc. Qed.

Lemma skeleton_gated_parts kps kp_thresh ops :
  (∀ op, op ∈ ops ↔
     op ∈ draw_mid_segments get_keypoints 15 kps kp_thresh
     ∨ op ∈ concat (imap (draw_limb kps kp_thresh)
                         (kp_connections get_keypoints))) →
  skeleton_gated kps kp_thresh ops.
Proof.
  intros Hops. split.
  - intros p1 p2 c. rewrite Hops.
    rewrite LimbLine_in_draw_mid_segments, elem_of_concat_imap.
    split.
    + intros [[?|?]|(l & [i1 i2] & Hl & Hin)]; [naive_solver..|].
      apply LimbLine_in_draw_limb in Hin. left. exists i1, i2.
      naive_solver.
    + intros [(i1 & i2 & Hl & ?)|[?|?]]; [|naive_solver..].
      right. exists c, (i1, i2). split; [done|].
      apply LimbLine_in_draw_limb. naive_solver.
  - intros p c. rewrite Hops, elem_of_concat_imap. split.
    + intros [Hmid|(l & [i1 i2] & Hl & Hin)].
      * by apply JointDot_in_draw_mid_segments in Hmid.
      * apply JointDot_in_draw_limb in Hin. exists i1, i2. naive_solver.
    + intros (i1 & i2 & Hl & Hp). right. exists c, (i1, i2).
      split; [done|]. apply JointDot_in_draw_limb. naive_solver.
Qed.

(** C8. In both renderers a limb, a synthetic segment or a joint marker
    is drawn exactly when the confidence of every endpoint strictly
    exceeds the visibility threshold; with a threshold of 2, a limb
    with an endpoint of confidence 1 is not drawn, whatever the other
    endpoint; a synthetic point is the coordinate-wise average of its
    two joints and its confidence is the minimum of theirs. *)
Theorem keypoint_gating (kps : Kps) (kp_thresh : Q) :
  skeleton_gated kps kp_thresh (vis_keypoints kps kp_thresh)
  ∧ skeleton_gated kps kp_thresh (plot_keypoints kps kp_thresh)
  ∧ (∀ l i1 i2 p1 p2,
       kp_connections get_keypoints !! l = Some (i1, i2) →
       ((logit (kps !!! i1) == 1)%Q ∨ (logit (kps !!! i2) == 1)%Q) →
       (LimbLine p1 p2 l ∉ vis_keypoints kps 2)
       ∧ (LimbLine p1 p2 l ∉ plot_keypoints kps 2))
  ∧ (∀ a b,
       ((mid_point kps a b).1 * 2 == jx (kps !!! a) + jx (kps !!! b)
        ∧ (mid_point kps a b).2 * 2 == jy (kps !!! a) + jy (kps !!! b)
        ∧ sc_mid kps a b <= logit (kps !!! a)
        ∧ sc_mid kps a b <= logit (kps !!! b)
        ∧ (sc_mid kps a b == logit (kps !!! a)
           ∨ sc_mid kps a b == logit (kps !!! b)))%Q).
Proof.
  assert (Hcv : ∀ th, skeleton_gated kps th (vis_keypoints kps th)).
  { intros th. apply skeleton_gated_parts. intros op.
    unfold vis_keypoints. simpl. by rewrite elem_of_app. }
  assert (Hplt : ∀ th, skeleton_gated kps th (plot_keypoints kps th)).
  { intros th. apply skeleton_gated_parts. intros op.
    unfold plot_keypoints. simpl. rewrite elem_of_app. tauto. }
  split; [done|]. split; [done|]. split.
  - intros l i1 i2 p1 p2 Hl Hone.
    assert (Hlt : l < 15) by by eapply kp_lines_lookup_lt.
    assert (Hunseen : ¬ ((2 < logit (kps !!! i1))%Q
                         ∧ (2 < logit (kps !!! i2))%Q)).
    { intros [H1 H2]. destruct Hone as [E|E]; rewrite E in *; done. }
    split.
    + intros Hin. apply (Hcv 2%Q) in Hin.
      destruct Hin as [(j1 & j2 & Hj & _ & _ & ? & ?)|[[? _]|[? _]]];
        [|lia..].
      rewrite Hl in Hj. injection Hj as <- <-. tauto.
    + intros Hin. apply (Hplt 2%Q) in Hin.
      destruct Hin as [(j1 & j2 & Hj & _ & _ & ? & ?)|[[? _]|[? _]]];
        [|lia..].
      rewrite Hl in Hj. injection Hj as <- <-. tauto.
  - intros a b. unfold mid_point, sc_mid. simpl.
    split; [field|]. split; [field|].
    split; [apply Q.le_min_l|]. split; [apply Q.le_min_r|].
    destruct (Q.min_dec (logit (kps !!! a)) (logit (kps !!! b))) as [E|E];
      rewrite E; [by left | by right].
Qed.
End keypoint_props.

(** ** The reference sort meets the contract of [np.argsort] *)

Section insertion_argsort_props.
Variable a : list Q.
Let R (i j : nat) : Prop := (a !!! i <= a !!! j)%Q.

Lemma insert_index_perm i inds : insert_index a i inds ≡ₚ i :: inds.
Proof.
  induction inds as [|j inds IH]; [done|].
  simpl. case_decide; [done|].
  rewrite IH. apply Permutation_swap.
Qed.

Lemma insertion_argsort_perm order : insertion_argsort order a ≡ₚ order.
Proof.
  induction order as [|i order IH]; [done|].
  simpl. fold (insertion_argsort order a).
  by rewrite insert_index_perm, IH.
Qed.

Lemma insert_index_sorted i inds :
  StronglySorted R inds → StronglySorted R (insert_index a i inds).
Proof.
  induction 1 as [|j inds Hsorted IH Hj]; simpl.
  - repeat constructor.
  - case_decide as Hij.
    + constructor; [by constructor|].
      constructor; [done|].
      eapply Forall_impl; [exact Hj|].
      intros k Hjk. unfold R in *. by eapply Qle_trans.
    + constructor; [done|].
      rewrite insert_index_perm. constructor; [|done].
      unfold R. apply Qlt_le_weak. by apply Qnot_le_lt.
Qed.

Lemma insertion_argsort_sorted order :
  StronglySorted R (insertion_argsort order a).
Proof.
  induction order as [|i order IH]; [constructor|].
  simpl. by apply insert_index_sorted.
Qed.
End insertion_argsort_props.

(** Two implementations of the collaborators: one sorts with ties in
    input order, the other with ties in reverse input order.  Both meet
    the contract of [np.argsort]. *)
Definition stable_collaborators : Collaborators :=
  {| argsort a := insertion_argsort (seq 0 (length a)) a;
     argsort_perm a := insertion_argsort_perm a (seq 0 (length a));
     argsort_sorted a := insertion_argsort_sorted a (seq 0 (length a));
     colormap := small_palette;
     get_keypoints := coco_keypoints |}.

Lemma reverse_ties_perm (a : list Q) :
  insertion_argsort (reverse (seq 0 (length a))) a ≡ₚ seq 0 (length a).
Proof. by rewrite insertion_argsort_perm, reverse_Permutation. Qed.

Definition tie_reversing_collaborators : Collaborators :=
  {| argsort a := insertion_argsort (reverse (seq 0 (length a))) a;
     argsort_perm := reverse_ties_perm;
     argsort_sorted a :=
       insertion_argsort_sorted a (reverse (seq 0 (length a)));
     colormap := small_palette;
     get_keypoints := coco_keypoints |}.




(** ** Paint order: properties *)

Section paint_order_props.
Context `{Collaborators}.

Lemma paint_order_perm boxes : paint_order boxes ≡ₚ seq 0 (length boxes).
Proof.
  unfold paint_order. rewrite argsort_perm. by rewrite !length_fmap.
Qed.

Lemma paint_order_lt boxes i : i ∈ paint_order boxes → i < length boxes.
Proof. rewrite paint_order_perm, elem_of_seq. lia. Qed.

Lemma paint_order_key boxes i :
  i < length boxes →
  (Qopp <$> (area <$> boxes)) !!! i = (- area (boxes !!! i))%Q.
Proof.
  intros Hi. apply list_lookup_total_correct.
  rewrite !list_lookup_fmap.
  destruct (lookup_lt_is_Some_2 boxes i Hi) as [b Hb].
  rewrite Hb. simpl. by rewrite (list_lookup_total_correct _ _ _ Hb).
Qed.

Lemma paint_order_sorted boxes :
  StronglySorted (λ i j, (area (boxes !!! j) <= area (boxes !!! i))%Q)
                 (paint_order boxes).
Proof.
  pose proof (argsort_sorted (Qopp <$> (area <$> boxes))) as Hsorted.
  fold (paint_order boxes) in Hsorted.
  assert (Hlt : Forall (λ i, i < length boxes) (paint_order boxes)).
  { apply Forall_forall. apply paint_order_lt. }
  induction Hsorted as [|i l Hsorted IH Hi]; [constructor|].
  apply Forall_cons_1 in Hlt as [Hilt Hlt].
  constructor; [by apply IH|].
  apply Forall_forall. intros j Hj.
  rewrite Forall_forall in Hi, Hlt.
  specialize (Hi j Hj). simpl in Hi.
  rewrite !paint_order_key in Hi by auto.
  by apply Qopp_le_compat in Hi; rewrite !Qopp_opp in Hi.
Qed.


End paint_order_props.


(** ** Loops *)

Lemma for_each_app {A S} (body : A → S → result S) (xs ys : list A) (s : S) :
  for_each body (xs ++ ys) s = (s' ← for_each body xs s; for_each body ys s').
Proof.
  revert s. induction xs as [|x xs IH]; intros s; [done|].
  simpl. destruct (body x s) as [s1|e]; simpl; [apply IH | done].
Qed.

Lemma bind_Ok_inv {A B} (r : result A) (k : A → result B) (b : B) :
  (a ← r; k a) = Ok b → ∃ a, r = Ok a ∧ k a = Ok b.
Proof. destruct r as [a|e]; [by exists a | done]. Qed.

Lemma getitem_lookup_total `{!Inhabited A} (xs : list A) (i : nat) :
  i < length xs → getitem xs i = Ok (xs !!! i).
Proof.
  intros Hi. unfold getitem.
  destruct (lookup_lt_is_Some_2 xs i Hi) as [x Hx].
  by rewrite Hx, (list_lookup_total_correct _ _ _ Hx).
Qed.

(** ** What the keypoint renderers draw is no mask *)

Lemma omap_no_mask ops : no_mask ops → omap mask_of_op ops = [].
Proof.
  induction 1 as [|op ops Hop _ IH]; [done|].
  simpl. by rewrite Hop.
Qed.

Lemma no_mask_draw_limb kps th l line : no_mask (draw_limb kps th l line).
Proof.
  unfold draw_limb, no_mask.
  repeat (destruct (decide _)); simpl; repeat constructor.
Qed.

Lemma no_mask_draw_mid_segments names n kps th :
  no_mask (draw_mid_segments names n kps th).
Proof.
  unfold draw_mid_segments, no_mask.
  repeat (destruct (decide _)); simpl; repeat constructor.
Qed.

Lemma no_mask_limbs kps th lines :
  no_mask (concat (imap (draw_limb kps th) lines)).
Proof.
  apply Forall_forall. intros op Hop.
  apply elem_of_concat_imap in Hop as (l & line & _ & Hop).
  pose proof (no_mask_draw_limb kps th l line) as Hno.
  unfold no_mask in Hno. rewrite Forall_forall in Hno. by apply Hno.
Qed.

Lemma no_mask_vis_keypoints `{Collaborators} kps th :
  no_mask (vis_keypoints kps th).
Proof.
  apply Forall_app. split;
    [apply no_mask_draw_mid_segments | apply no_mask_limbs].
Qed.

Lemma no_mask_plot_keypoints `{Collaborators} kps th :
  no_mask (plot_keypoints kps th).
Proof.
  apply Forall_app. split;
    [apply no_mask_limbs | apply no_mask_draw_mid_segments].
Qed.

(** ** The OpenCV rendering pass *)

Lemma masks_painted_snoc (c : canvas) i ops :
  masks_painted (c ++ [(i, ops)]) = masks_painted c ++ omap mask_of_op ops.
Proof.
  unfold masks_painted.
  rewrite fmap_app, concat_app, omap_app. simpl. by rewrite app_nil_r.
Qed.

Lemma rendered_snoc (c : canvas) i ops :
  rendered (c ++ [(i, ops)]) = rendered c ++ [i].
Proof. unfold rendered. by rewrite fmap_app. Qed.

Lemma passes_not_below boxes thresh i :
  passes boxes thresh i ↔ ¬ (score (boxes !!! i) < thresh)%Q.
Proof.
  unfold passes. split.
  - intros Hle Hlt. by apply (Qlt_not_le _ _ Hlt).
  - apply Qnot_lt_le.
Qed.

Section opencv_pass.
Context `{Collaborators}.
Variables (boxes : list Box) (segms : option (list Segm))
          (keypoints : option (list Kps)) (classes : option (list nat)).
Variables (thresh kp_thresh : Q) (show_box : bool)
          (dataset : option (list string)) (show_class : bool).
Variable palette : list Color.

Let body := opencv_body boxes segms keypoints classes thresh kp_thresh
                        show_box dataset show_class palette.
Let slot_of (n : nat) := n `mod` length palette.

Lemma opencv_body_inv i st st' :
  i < length boxes →
  body i st = Ok st' →
  if decide (passes boxes thresh i)
  then ∃ ops,
      cv_im st' = cv_im st ++ [(i, ops)]
      ∧ omap mask_of_op ops
        = (if decide (has_mask segms i)
           then [(i, slot_of (cv_mask_color_id st),
                  palette !!! slot_of (cv_mask_color_id st))]
           else [])
      ∧ cv_mask_color_id st'
        = cv_mask_color_id st + (if decide (has_mask segms i) then 1 else 0)
  else st' = st.
Proof.
  intros Hi. unfold body, opencv_body.
  rewrite getitem_lookup_total by done. simpl.
  destruct (decide (score (boxes !!! i) < thresh)%Q) as [Hlow|Hpass].
  { intros [= <-]. rewrite decide_False; [done|].
    by rewrite passes_not_below; intros []. }
  rewrite decide_True by by apply passes_not_below.
  intros Hbody. apply bind_Ok_inv in Hbody as (class_ops & Hclass & Hbody).
  assert (Hclass_no : no_mask class_ops).
  { destruct show_class; [|by injection Hclass as <-; constructor].
    apply bind_Ok_inv in Hclass as (cls & _ & Hclass).
    apply bind_Ok_inv in Hclass as (c & _ & Hclass).
    apply bind_Ok_inv in Hclass as (class_str & _ & Hclass).
    injection Hclass as <-. by repeat constructor. }
  assert (Hbox_no : no_mask
            (if show_box
             then [CvRectangle
                     (py_int (x_min (boxes !!! i)))
                     (py_int (y_min (boxes !!! i)))
                     (py_int (x_min (boxes !!! i)
                              + (x_max (boxes !!! i) - x_min (boxes !!! i))))
                     (py_int (y_min (boxes !!! i)
                              + (y_max (boxes !!! i) - y_min (boxes !!! i))))]
             else [])).
  { destruct show_box; by repeat constructor. }
  assert (Hkp_no : no_mask
            (match keypoints with
             | Some ks => if decide (i < length ks)
                          then vis_keypoints (ks !!! i) kp_thresh else []
             | None => []
             end)).
  { destruct keypoints as [ks|]; [|constructor].
    case_decide; [apply no_mask_vis_keypoints | constructor]. }
  destruct segms as [ss|]; cbn [has_mask] in *.
  - destruct (decide (i < length ss)) as [Hm|Hm];
      injection Hbody as <-; cbn [cv_im cv_mask_color_id];
      eexists; (split; [done|]);
      rewrite !omap_app; cbn [omap list_omap mask_of_op];
      rewrite (omap_no_mask _ Hbox_no), (omap_no_mask _ Hclass_no),
        (omap_no_mask _ Hkp_no);
      simpl; (split; [done|lia]).
  - injection Hbody as <-; cbn [cv_im cv_mask_color_id];
      eexists; (split; [done|]).
    rewrite !omap_app, (omap_no_mask _ Hbox_no),
      (omap_no_mask _ Hclass_no), (omap_no_mask _ Hkp_no).
    simpl. split; [done|lia].
Qed.

Lemma opencv_loop_inv inds st st' :
  Forall (λ i, i < length boxes) inds →
  for_each body inds st = Ok st' →
  rendered (cv_im st')
  = rendered (cv_im st) ++ filter (passes boxes thresh) inds
  ∧ masks_painted (cv_im st')
    = masks_painted (cv_im st)
      ++ imap (λ k i, (i, slot_of (cv_mask_color_id st + k),
                       palette !!! slot_of (cv_mask_color_id st + k)))
              (filter (λ i, passes boxes thresh i ∧ has_mask segms i) inds)
  ∧ cv_mask_color_id st'
    = cv_mask_color_id st
      + length (filter (λ i, passes boxes thresh i ∧ has_mask segms i)
                       inds).
Proof.
  intros Hinds. revert st.
  induction Hinds as [|i inds Hi _ IH]; intros st Hloop.
  { injection Hloop as <-. simpl. rewrite !app_nil_r. split_and!; [done..|lia]. }
  simpl in Hloop. apply bind_Ok_inv in Hloop as (st1 & Hstep & Hloop).
  apply IH in Hloop as (Hr & Hm & Hid). clear IH.
  apply opencv_body_inv in Hstep; [|done].
  rewrite !filter_cons.
  destruct (decide (passes boxes thresh i)) as [Hp|Hp].
  - destruct Hstep as (ops & Him & Hops & Hid1).
    rewrite Hr, Hm, Hid, Him, Hid1, rendered_snoc, masks_painted_snoc, Hops.
    destruct (decide (has_mask segms i)) as [Hmask|Hmask].
    + rewrite decide_True by done. simpl.
      rewrite <- !app_assoc. simpl. rewrite Nat.add_0_r.
      split_and!; [done| |lia].
      do 2 f_equal. apply imap_ext. intros k j _. simpl.
      by replace (cv_mask_color_id st + 1 + k)
        with (cv_mask_color_id st + S k) by lia.
    + rewrite decide_False by tauto.
      rewrite <- !app_assoc. simpl. rewrite !Nat.add_0_r.
      done.
  - subst st1. rewrite decide_False by tauto. done.
Qed.
End opencv_pass.

(** ** The palette of the plotting pass *)

Lemma length_palette_after (m : nat) (palette : list Color) :
  length (palette_after m palette) = length palette.
Proof. unfold palette_after. by rewrite length_imap. Qed.

Lemma palette_after_0 (palette : list Color) :
  palette_after 0 palette = palette.
Proof.
  unfold palette_after. apply list_eq. intros r.
  rewrite list_lookup_imap. destruct (palette !! r) as [c|] eqn:E; [|done].
  simpl. f_equal.
  assert (0 < length palette) by (apply lookup_lt_Some in E; lia).
  rewrite Nat.Div0.div_0_l, Nat.Div0.mod_0_l.
  by rewrite decide_False by lia.
Qed.

Lemma succ_div_mod (m n : nat) :
  0 < n →
  (m `mod` n + 1 < n ∧ S m / n = m / n ∧ S m `mod` n = m `mod` n + 1)
  ∨ (m `mod` n + 1 = n ∧ S m / n = m / n + 1 ∧ S m `mod` n = 0).
Proof.
  intros Hn.
  pose proof (Nat.mod_upper_bound m n) as Hlt.
  pose proof (Nat.div_mod_eq m n) as Hm.
  pose proof (Nat.mod_upper_bound (S m) n) as Hlt'.
  pose proof (Nat.div_mod_eq (S m) n) as Hm'.
  destruct (decide (m `mod` n + 1 < n)) as [Hin|Hout].
  - left. split; [done|].
    apply (Nat.div_mod_unique n); lia.
  - right. split; [lia|].
    apply (Nat.div_mod_unique n); lia.
Qed.

(** The row the next mask reads has been lightened once per round the
    palette has been gone through. *)
Lemma palette_after_read (m : nat) (palette : list Color) :
  palette ≠ [] →
  palette_after m palette !!! (m `mod` length palette)
  = Nat.iter (m / length palette) lighten
             (palette !!! (m `mod` length palette)).
Proof.
  intros Hne.
  assert (Hn : 0 < length palette) by (destruct palette; [done|simpl; lia]).
  pose proof (Nat.mod_upper_bound m (length palette)) as Hlt.
  destruct (lookup_lt_is_Some_2 palette (m `mod` length palette))
    as [c Hc]; [lia|].
  apply list_lookup_total_correct.
  unfold palette_after. rewrite list_lookup_imap, Hc. simpl.
  rewrite decide_False by lia. rewrite Nat.add_0_r.
  by rewrite (list_lookup_total_correct _ _ _ Hc).
Qed.

(** Writing the lightened colour back gives the palette after one more
    mask. *)
Lemma palette_after_write (m : nat) (palette : list Color) :
  palette ≠ [] →
  <[m `mod` length palette :=
      lighten (Nat.iter (m / length palette) lighten
                        (palette !!! (m `mod` length palette)))]>
    (palette_after m palette)
  = palette_after (S m) palette.
Proof.
  intros Hne.
  assert (Hn : 0 < length palette) by (destruct palette; [done|simpl; lia]).
  set (n := length palette) in *.
  pose proof (Nat.mod_upper_bound m n) as Hlt.
  pose proof (succ_div_mod m n Hn) as Hsucc.
  apply list_eq. intros r.
  destruct (decide (r = m `mod` n)) as [->|Hr].
  - rewrite list_lookup_insert_eq
      by (rewrite length_palette_after; fold n; lia).
    unfold palette_after. rewrite list_lookup_imap. fold n.
    destruct (lookup_lt_is_Some_2 palette (m `mod` n)) as [c Hc];
      [fold n; lia|].
    rewrite Hc, (list_lookup_total_correct _ _ _ Hc). simpl. f_equal.
    change (lighten (Nat.iter (m / n) lighten c))
      with (Nat.iter (S (m / n)) lighten c).
    f_equal.
    destruct (decide (m `mod` n < S m `mod` n)); lia.
  - rewrite list_lookup_insert_ne by done.
    unfold palette_after. rewrite !list_lookup_imap. fold n.
    destruct (palette !! r) as [c|] eqn:Hc; [|done].
    apply lookup_lt_Some in Hc. fold n in Hc.
    simpl. do 2 f_equal.
    destruct (decide (r < m `mod` n)), (decide (r < S m `mod` n)); lia.
Qed.

(** ** The plotting rendering pass *)

Section plt_pass.
Context `{Collaborators}.
Variables (boxes : list Box) (segms : option (list Segm))
          (keypoints : option (list Kps)) (classes : option (list nat)).
Variables (thresh kp_thresh : Q)
          (dataset : option (list string)) (show_class : bool).

Let body := plt_body boxes segms keypoints classes thresh kp_thresh
                     dataset show_class.

Lemma plt_body_skip i st :
  i < length boxes → ¬ passes boxes thresh i → body i st = Ok st.
Proof.
  intros Hi Hlow. unfold body, plt_body.
  rewrite getitem_lookup_total by done. simpl.
  rewrite decide_True; [done|].
  apply Qnot_le_lt. exact Hlow.
Qed.

Lemma plt_body_inv i st st' :
  i < length boxes →
  body i st = Ok st' →
  if decide (passes boxes thresh i)
  then ∃ ops,
      ax st' = ax st ++ [(i, ops)]
      ∧ temp_boxes st' = temp_boxes st ++ [boxes !!! i]
      ∧ (if show_class
         then ∃ cls c, classes = Some cls ∧ cls !! i = Some c
                       ∧ temp_classify_id_list st'
                         = temp_classify_id_list st ++ [c]
         else temp_classify_id_list st' = temp_classify_id_list st)
      ∧ (λ m, m.1) <$> omap mask_of_op ops
        = (if decide (has_mask segms i)
           then [(i, mask_color_id st `mod` length (color_list st))]
           else [])
      ∧ mask_color_id st'
        = mask_color_id st + (if decide (has_mask segms i) then 1 else 0)
      ∧ length (color_list st') = length (color_list st)
  else st' = st.
Proof.
  intros Hi. destruct (decide (passes boxes thresh i)) as [Hpass|Hlow].
  2:{ rewrite plt_body_skip by done. by intros [= <-]. }
  unfold body, plt_body.
  rewrite getitem_lookup_total by done. simpl.
  rewrite decide_False by by apply passes_not_below.
  intros Hbody.
  apply bind_Ok_inv in Hbody as ([ids class_ops] & Hclass & Hbody).
  assert (no_mask class_ops
            ∧ if show_class
              then ∃ cls c, classes = Some cls ∧ cls !! i = Some c
                            ∧ ids = temp_classify_id_list st ++ [c]
              else ids = temp_classify_id_list st) as [Hclass_no Hids].
  { destruct show_class.
    - apply bind_Ok_inv in Hclass as (cls & Hcls & Hclass).
      apply bind_Ok_inv in Hclass as (c & Hc & Hclass).
      apply bind_Ok_inv in Hclass as (class_str & _ & Hclass).
      injection Hclass as <- <-. split; [by repeat constructor|].
      exists cls, c. split_and!; [|  |done].
      + unfold read_local in Hcls. destruct classes; congruence.
      + unfold getitem in Hc. destruct (cls !! i); congruence.
    - injection Hclass as <- <-. split; [constructor | done]. }
  assert (Hkp_no : no_mask
            (match keypoints with
             | Some ks => if decide (i < length ks)
                          then plot_keypoints (ks !!! i) kp_thresh else []
             | None => []
             end)).
  { destruct keypoints as [ks|]; [|constructor].
    case_decide; [apply no_mask_plot_keypoints | constructor]. }
  destruct segms as [ss|]; cbn [has_mask] in *.
  - destruct (decide (i < length ss)) as [Hm|Hm];
      injection Hbody as <-;
      cbn [ax temp_boxes temp_classify_id_list mask_color_id color_list];
      eexists; (split; [done|]); (split; [done|]); (split; [done|]);
      cbn [omap list_omap mask_of_op];
      rewrite !omap_app; cbn [omap list_omap mask_of_op];
      rewrite (omap_no_mask _ Hclass_no), (omap_no_mask _ Hkp_no);
      simpl; rewrite ?length_insert; (split_and!; [done|lia|done]).
  - injection Hbody as <-;
      cbn [ax temp_boxes temp_classify_id_list mask_color_id color_list];
      eexists; (split; [done|]); (split; [done|]); (split; [done|]).
    cbn [omap list_omap mask_of_op].
    rewrite !omap_app; cbn [omap list_omap mask_of_op].
    rewrite (omap_no_mask _ Hclass_no), (omap_no_mask _ Hkp_no).
    simpl. split_and!; [done|lia|done].
Qed.

Lemma plt_body_no_class_total i st :
  show_class = false → i < length boxes → ∃ st', body i st = Ok st'.
Proof.
  intros Hsc Hi. unfold body, plt_body.
  rewrite getitem_lookup_total by done. simpl.
  case_decide; [by eexists|]. rewrite Hsc. simpl.
  destruct segms as [ss|]; [case_decide|]; by eexists.
Qed.

Lemma plt_loop_no_class_total inds st :
  show_class = false →
  Forall (λ i, i < length boxes) inds →
  ∃ st', for_each body inds st = Ok st'.
Proof.
  intros Hsc Hinds. revert st.
  induction Hinds as [|i inds Hi _ IH]; intros st; [by eexists|].
  simpl. destruct (plt_body_no_class_total i st Hsc Hi) as [st1 ->].
  simpl. apply IH.
Qed.

Lemma plt_loop_nothing_passes inds st :
  Forall (λ i, i < length boxes ∧ ¬ passes boxes thresh i) inds →
  for_each body inds st = Ok st.
Proof.
  induction 1 as [|i inds [Hi Hlow] _ IH]; [done|].
  simpl. by rewrite plt_body_skip.
Qed.

Lemma plt_loop_inv inds st st' :
  Forall (λ i, i < length boxes) inds →
  for_each body inds st = Ok st' →
  rendered (ax st') = rendered (ax st) ++ filter (passes boxes thresh) inds
  ∧ temp_boxes st'
    = temp_boxes st ++ ((boxes !!!.) <$> filter (passes boxes thresh) inds)
  ∧ (if show_class
     then ∃ ids,
         temp_classify_id_list st' = temp_classify_id_list st ++ ids
         ∧ Forall2 (λ i c, ∃ cls, classes = Some cls ∧ cls !! i = Some c)
                   (filter (passes boxes thresh) inds) ids
     else temp_classify_id_list st' = temp_classify_id_list st)
  ∧ (λ m, m.1) <$> masks_painted (ax st')
    = ((λ m, m.1) <$> masks_painted (ax st))
      ++ imap (λ k i, (i, (mask_color_id st + k)
                          `mod` length (color_list st)))
              (filter (λ i, passes boxes thresh i ∧ has_mask segms i) inds)
  ∧ mask_color_id st'
    = mask_color_id st
      + length (filter (λ i, passes boxes thresh i ∧ has_mask segms i) inds)
  ∧ length (color_list st') = length (color_list st).
Proof.
  intros Hinds. revert st.
  induction Hinds as [|i inds Hi _ IH]; intros st Hloop.
  { injection Hloop as <-. simpl. rewrite !app_nil_r.
    split_and!; [done|done| |done|lia|done].
    destruct show_class; [|done].
    exists []. by rewrite app_nil_r. }
  simpl in Hloop. apply bind_Ok_inv in Hloop as (st1 & Hstep & Hloop).
  apply IH in Hloop as (Hr & Hb & Hc & Hm & Hid & Hlen). clear IH.
  apply plt_body_inv in Hstep; [|done].
  rewrite !filter_cons.
  destruct (decide (passes boxes thresh i)) as [Hp|Hp].
  2:{ subst st1. rewrite decide_False by tauto. done. }
  destruct Hstep as (ops & Hax & Hb1 & Hc1 & Hops & Hid1 & Hlen1).
  rewrite Hr, Hb, Hm, Hid, Hlen, Hax, Hb1, Hid1, Hlen1.
  rewrite rendered_snoc, masks_painted_snoc, fmap_app, Hops.
  rewrite <- !app_assoc. simpl.
  split_and!; [done|done| | | |done].
  - destruct show_class; [|congruence].
    destruct Hc1 as (cls & c & Hcls & Hci & Hids1).
    destruct Hc as (ids & Hids & Hall).
    exists (c :: ids). rewrite Hids, Hids1, <- app_assoc.
    split; [done|]. constructor; [by exists cls | done].
  - destruct (decide (has_mask segms i)) as [Hmask|Hmask].
    + rewrite decide_True by done. simpl. rewrite Nat.add_0_r.
      do 2 f_equal. apply imap_ext. intros k j _. simpl.
      by replace (mask_color_id st + 1 + k)
        with (mask_color_id st + S k) by lia.
    + rewrite decide_False by tauto. simpl. by rewrite Nat.add_0_r.
  - destruct (decide (has_mask segms i)) as [Hmask|Hmask].
    + rewrite decide_True by done. simpl. lia.
    + rewrite decide_False by tauto. simpl. lia.
Qed.
(** What the body paints for a detection that passes, colour included,
    and what it leaves in the palette. *)
Lemma plt_body_mask i st st' :
  i < length boxes →
  passes boxes thresh i →
  body i st = Ok st' →
  let slot := mask_color_id st `mod` length (color_list st) in
  let color_mask := lighten (color_list st !!! slot) in
  ∃ ops,
    ax st' = ax st ++ [(i, ops)]
    ∧ if decide (has_mask segms i)
      then omap mask_of_op ops = [(i, slot, color_mask)]
           ∧ mask_color_id st' = mask_color_id st + 1
           ∧ color_list st' = <[slot := color_mask]> (color_list st)
      else omap mask_of_op ops = []
           ∧ mask_color_id st' = mask_color_id st
           ∧ color_list st' = color_list st.
Proof.
  intros Hi Hpass. unfold body, plt_body.
  rewrite getitem_lookup_total by done. cbn [mbind result_bind].
  rewrite decide_False by by apply passes_not_below.
  intros Hbody.
  apply bind_Ok_inv in Hbody as ([ids class_ops] & Hclass & Hbody).
  assert (Hclass_no : no_mask class_ops).
  { destruct show_class.
    - apply bind_Ok_inv in Hclass as (cls & _ & Hclass).
      apply bind_Ok_inv in Hclass as (c & _ & Hclass).
      apply bind_Ok_inv in Hclass as (class_str & _ & Hclass).
      injection Hclass as <- <-. by repeat constructor.
    - injection Hclass as <- <-. constructor. }
  assert (Hkp_no : no_mask
            (match keypoints with
             | Some ks => if decide (i < length ks)
                          then plot_keypoints (ks !!! i) kp_thresh else []
             | None => []
             end)).
  { destruct keypoints as [ks|]; [|constructor].
    case_decide; [apply no_mask_plot_keypoints | constructor]. }
  destruct segms as [ss|]; cbn [has_mask] in *.
  - destruct (decide (i < length ss)) as [Hm|Hm];
      injection Hbody as <-;
      cbn [ax temp_boxes temp_classify_id_list mask_color_id color_list];
      eexists; (split; [done|]);
      cbn [omap list_omap mask_of_op];
      rewrite !omap_app; cbn [omap list_omap mask_of_op];
      rewrite (omap_no_mask _ Hclass_no), (omap_no_mask _ Hkp_no);
      simpl; done.
  - destruct (decide _) as [[]|_].
    injection Hbody as <-;
      cbn [ax temp_boxes temp_classify_id_list mask_color_id color_list];
      eexists; (split; [done|]).
    cbn [omap list_omap mask_of_op].
    rewrite !omap_app; cbn [omap list_omap mask_of_op].
    rewrite (omap_no_mask _ Hclass_no), (omap_no_mask _ Hkp_no).
    simpl. done.
Qed.

(** The colours of a pass: from a palette that [m] masks have already
    read, the [k]-th mask painted reads row [(m + k) mod n] and is painted
    with the colour that row had at first, lightened once for every
    earlier mask that read the row and once more for itself. *)
Lemma plt_loop_colours (palette : list Color) inds st st' :
  palette ≠ [] →
  Forall (λ i, i < length boxes) inds →
  color_list st = palette_after (mask_color_id st) palette →
  for_each body inds st = Ok st' →
  masks_painted (ax st')
  = masks_painted (ax st)
    ++ imap (λ k i,
               let m := mask_color_id st + k in
               (i, m `mod` length palette,
                Nat.iter (S (m / length palette)) lighten
                         (palette !!! (m `mod` length palette))))
            (filter (λ i, passes boxes thresh i ∧ has_mask segms i) inds)
  ∧ color_list st' = palette_after (mask_color_id st') palette.
Proof.
  intros Hne Hinds. revert st.
  induction Hinds as [|i inds Hi _ IH]; intros st Hpal Hloop.
  { injection Hloop as <-. simpl. by rewrite app_nil_r. }
  simpl in Hloop. apply bind_Ok_inv in Hloop as (st1 & Hstep & Hloop).
  rewrite filter_cons.
  destruct (decide (passes boxes thresh i)) as [Hp|Hp].
  2:{ rewrite plt_body_skip in Hstep by done. injection Hstep as <-.
      rewrite decide_False by tauto. by apply IH. }
  apply plt_body_mask in Hstep as (ops & Hax & Hmask); [|done..].
  destruct (decide (has_mask segms i)) as [Hm|Hm].
  - destruct Hmask as (Hops & Hid & Hcl).
    rewrite decide_True by done.
    rewrite Hpal, length_palette_after in Hops, Hcl.
    rewrite palette_after_read in Hops, Hcl by done.
    rewrite palette_after_write in Hcl by done.
    apply IH in Hloop as [Hpaint Hpal']; [|by rewrite Hcl, Hid, Nat.add_1_r].
    split; [|done].
    rewrite Hpaint, Hax, masks_painted_snoc, Hops, Hid.
    rewrite <- app_assoc. f_equal. cbn [imap app]. rewrite Nat.add_0_r.
    f_equal. apply imap_ext. intros k j _. cbn zeta.
    by replace (mask_color_id st + 1 + k)
      with (mask_color_id st + S k) by lia.
  - destruct Hmask as (Hops & Hid & Hcl).
    rewrite decide_False by tauto.
    apply IH in Hloop as [Hpaint Hpal']; [|by rewrite Hcl, Hid].
    split; [|done].
    by rewrite Hpaint, Hax, masks_painted_snoc, Hops, Hid, app_nil_r.
Qed.
End plt_pass.

(** ** The early exit *)

Lemma max_score_upper_bound (m : Q) (bs : list Box) :
  (m <= foldl (λ m b', Qmax m (score b')) m bs)%Q
  ∧ Forall (λ b', (score b' <= foldl (λ m b', Qmax m (score b')) m bs)%Q) bs.
Proof.
  revert m. induction bs as [|b bs IH]; intros m.
  - split; [apply Qle_refl | constructor].
  - simpl. destruct (IH (Qmax m (score b))) as [Hm Hall].
    split; [|constructor; [|done]].
    + eapply Qle_trans; [apply Q.le_max_l | exact Hm].
    + eapply Qle_trans; [apply Q.le_max_r | exact Hm].
Qed.

Lemma nothing_to_render_all_below boxes thresh bs :
  nothing_to_render boxes thresh = true → boxes = Some bs →
  Forall (λ b, (score b < thresh)%Q) bs.
Proof.
  intros Hnothing ->. destruct bs as [|b bs]; [constructor|].
  simpl in Hnothing. apply bool_decide_eq_true in Hnothing.
  destruct (max_score_upper_bound (score b) bs) as [Hb Hbs].
  constructor.
  - eapply Qle_lt_trans; [exact Hb | exact Hnothing].
  - eapply Forall_impl; [exact Hbs|]. intros b' Hb'. simpl in Hb'.
    eapply Qle_lt_trans; [exact Hb' | exact Hnothing].
Qed.

Lemma all_below_not_passes (bs : list Box) thresh i :
  Forall (λ b, (score b < thresh)%Q) bs → i < length bs →
  ¬ passes bs thresh i.
Proof.
  intros Hall Hi. rewrite passes_not_below. intros Hn. apply Hn.
  rewrite Forall_forall in Hall. apply Hall.
  by apply list_elem_of_lookup_total_2.
Qed.

(** ** The annotation table *)

Section txt_file_func_props.
Variables (txt_image : string) (txt_label_list : list (option string))
          (txt_boxes : list Box).

Let body (i : nat) (temp_txt_total : option (list txt_row))
  : result (option (list txt_row)) :=
  temp_label_i ← getitem txt_label_list i;
  b ← getitem txt_boxes i;
  let temp_text :=
    {| row_image := txt_image;
       row_label := temp_label_i;
       row_box := (x_min b, y_min b, x_max b, y_max b) |} in
  if decide (i = 0) then Ok (Some [temp_text])
  else total ← read_local temp_txt_total;
       Ok (Some (total ++ [temp_text])).

(** The table after the first [k] iterations. *)
Let table_upto (k : nat) (total : option (list txt_row)) : Prop :=
  match total with
  | None => k = 0
  | Some rows =>
      0 < k
      ∧ row_box <$> rows = box_coords <$> take k txt_boxes
      ∧ row_label <$> rows = take k txt_label_list
      ∧ length (take k txt_label_list) = k
      ∧ Forall (λ r, row_image r = txt_image) rows
  end.

Lemma txt_file_func_loop_inv n k total total' :
  table_upto k total →
  for_each body (seq k n) total = Ok total' →
  table_upto (k + n) total'.
Proof.
  revert k total. induction n as [|n IH]; intros k total Hinv Hloop.
  { injection Hloop as <-. by rewrite Nat.add_0_r. }
  simpl in Hloop. apply bind_Ok_inv in Hloop as (total1 & Hstep & Hloop).
  replace (k + S n) with (S k + n) by lia.
  apply (λ Hinv1, IH _ _ Hinv1 Hloop). clear IH Hloop.
  unfold body in Hstep.
  apply bind_Ok_inv in Hstep as (lbl & Hlbl & Hstep).
  apply bind_Ok_inv in Hstep as (b & Hb & Hstep).
  unfold getitem in Hlbl, Hb.
  destruct (txt_label_list !! k) as [lbl'|] eqn:El; [|done].
  destruct (txt_boxes !! k) as [b'|] eqn:Eb; [|done].
  injection Hlbl as ->. injection Hb as ->.
  destruct (decide (k = 0)) as [->|Hk].
  - injection Hstep as <-. unfold table_upto.
    rewrite (take_S_r _ _ _ El), (take_S_r _ _ _ Eb). simpl.
    split_and!; [lia|done..| by repeat constructor].
  - apply bind_Ok_inv in Hstep as (rows & Hrows & Hstep).
    injection Hstep as <-.
    destruct total as [rows'|]; [|done]. injection Hrows as ->.
    destruct Hinv as (_ & Hboxes & Hlabels & Hlen & Himage).
    unfold table_upto.
    rewrite (take_S_r _ _ _ El), (take_S_r _ _ _ Eb).
    rewrite !fmap_app, Hboxes, Hlabels, length_app, Hlen. simpl.
    split_and!; [lia|done|done|lia|].
    apply Forall_app. split; [done | by repeat constructor].
Qed.

Lemma txt_file_func_inv rows :
  txt_file_func txt_image txt_label_list txt_boxes = Ok rows →
  txt_boxes ≠ []
  ∧ row_box <$> rows = box_coords <$> txt_boxes
  ∧ row_label <$> rows = take (length txt_boxes) txt_label_list
  ∧ length txt_boxes ≤ length txt_label_list
  ∧ Forall (λ r, row_image r = txt_image) rows.
Proof.
  unfold txt_file_func. intros Hcall.
  apply bind_Ok_inv in Hcall as (total & Hloop & Hread).
  apply (txt_file_func_loop_inv _ 0 None) in Hloop; [|done].
  destruct total as [rows'|]; [|done]. injection Hread as ->.
  simpl in Hloop. destruct Hloop as (Hpos & Hboxes & Hlabels & Hlen & Himage).
  rewrite firstn_all in Hboxes.
  split_and!; [|done|done| |done].
  - intros ->. simpl in Hpos. lia.
  - rewrite length_take in Hlen. lia.
Qed.
End txt_file_func_props.

Lemma txt_file_func_no_rows txt_image txt_label_list :
  txt_file_func txt_image txt_label_list [] = Raise UnboundLocalError.
Proof. reflexivity. Qed.

Lemma txt_file_func_no_labels txt_image b txt_boxes :
  txt_file_func txt_image [] (b :: txt_boxes) = Raise IndexError.
Proof. reflexivity. Qed.

(** ** The annotation record *)

Section xml_create_func_props.
Variables (xml_dir image_folder image_name image_path_ab : string).

Let body (txt_row : txt_row) (acc : list xml_object * option string)
  : result (list xml_object * option string) :=
  let '(objects, _) := acc in
  txt_name ← createTextNode (row_label txt_row);
  Ok (objects ++ [ {| obj_name := txt_name;
                      obj_pose := "Unspecified";
                      obj_truncated := "0";
                      obj_difficult := "0";
                      obj_bndbox := row_box txt_row |} ],
      Some (row_image txt_row)).

Lemma xml_create_func_loop_inv rows objects name objects' name' :
  for_each body rows (objects, name) = Ok (objects', name') →
  obj_bndbox <$> objects' = (obj_bndbox <$> objects) ++ (row_box <$> rows)
  ∧ Some ∘ obj_name <$> objects'
    = (Some ∘ obj_name <$> objects) ++ (row_label <$> rows)
  ∧ name' = match last rows with
            | Some r => Some (row_image r)
            | None => name
            end.
Proof.
  revert objects name.
  induction rows as [|r rows IH]; intros objects name Hloop.
  { injection Hloop as <- <-. by rewrite !app_nil_r. }
  simpl in Hloop. apply bind_Ok_inv in Hloop as ([objs1 name1] & Hstep & Hloop).
  apply IH in Hloop as (Hboxes & Hnames & Hlast). clear IH.
  unfold body in Hstep.
  apply bind_Ok_inv in Hstep as (txt_name & Htxt & Hstep).
  injection Hstep as <- <-.
  destruct (row_label r) as [lbl|] eqn:El; [|done].
  injection Htxt as ->.
  rewrite Hboxes, Hnames, !fmap_app, <- !app_assoc. simpl. rewrite El.
  split; [reflexivity|]. split; [reflexivity|].
  rewrite Hlast, last_cons. by destruct (last rows).
Qed.

Lemma xml_create_func_inv image_size rows file doc :
  xml_create_func xml_dir image_folder image_name image_path_ab
                  image_size rows = Ok (file, doc) →
  obj_bndbox <$> ann_objects doc = row_box <$> rows
  ∧ Some ∘ obj_name <$> ann_objects doc = row_label <$> rows
  ∧ ∃ r, last rows = Some r
         ∧ file = xml_dir +:+ "/" +:+ drop_last 4 (row_image r) +:+ ".xml".
Proof.
  unfold xml_create_func. intros Hcall.
  apply bind_Ok_inv in Hcall as (width & _ & Hcall).
  apply bind_Ok_inv in Hcall as (height & _ & Hcall).
  apply bind_Ok_inv in Hcall as (depth & _ & Hcall).
  apply bind_Ok_inv in Hcall as ([objects name] & Hloop & Hcall).
  apply bind_Ok_inv in Hcall as (txt_file_name & Hname & Hcall).
  injection Hcall as <- <-. simpl.
  apply xml_create_func_loop_inv in Hloop as (Hboxes & Hnames & Hlast).
  split_and!; [done|done|].
  destruct (last rows) as [r|]; subst name; [|done].
  injection Hname as <-. by exists r.
Qed.
End xml_create_func_props.

(** ** The detections kept by the score test *)

Lemma filter_by_index {A} `{!Inhabited A} (P : A → Prop)
    `{!∀ x, Decision (P x)} (pre l : list A) :
  (λ i, (pre ++ l) !!! i)
    <$> filter (λ i, P ((pre ++ l) !!! i)) (seq (length pre) (length l))
  = filter P l.
Proof.
  revert pre. induction l as [|x l IH]; intros pre; [done|].
  cbn [length seq]. rewrite !filter_cons.
  assert (Hx : (pre ++ x :: l) !!! length pre = x).
  { apply list_lookup_total_correct.
    by rewrite lookup_app_r, Nat.sub_diag by lia. }
  rewrite Hx.
  specialize (IH (pre ++ [x])).
  rewrite <- app_assoc, length_app in IH. simpl in IH.
  rewrite Nat.add_1_r in IH.
  destruct (decide (P x)).
  - rewrite fmap_cons, Hx. by rewrite IH.
  - exact IH.
Qed.

Section kept_detections.
Context `{Collaborators}.
Variables (bs : list Box) (thresh : Q).

Lemma kept_elem_of i :
  i ∈ filter (passes bs thresh) (paint_order bs)
  ↔ i < length bs ∧ (thresh <= score (bs !!! i))%Q.
Proof.
  rewrite list_elem_of_filter, paint_order_perm, elem_of_seq.
  unfold passes. intuition lia.
Qed.

Lemma kept_boxes_perm :
  (bs !!!.) <$> filter (passes bs thresh) (paint_order bs)
  ≡ₚ filter (λ b, (thresh <= score b)%Q) bs.
Proof.
  rewrite paint_order_perm.
  pose proof (filter_by_index (λ b, (thresh <= score b)%Q) [] bs) as E.
  simpl in E. by rewrite <- E.
Qed.

Lemma kept_length :
  length (filter (passes bs thresh) (paint_order bs))
  = length (filter (λ b, (thresh <= score b)%Q) bs).
Proof. by rewrite <- kept_boxes_perm, length_fmap. Qed.

Lemma paint_order_in_range :
  Forall (λ i, i < length bs) (paint_order bs).
Proof. apply Forall_forall. apply paint_order_lt. Qed.
End kept_detections.

Lemma unpack_detected_boxes dets boxes segms keypoints classes :
  unpack dets = (boxes, segms, keypoints, classes) →
  detected_boxes dets = default [] boxes.
Proof. unfold detected_boxes. by intros ->. Qed.

(** ** The OpenCV renderer *)

Section vis_one_image_opencv_props.
Context `{Collaborators}.

Lemma opencv_paint_rendered bs segms keypoints classes thresh kp_thresh
    show_box dataset show_class st :
  opencv_paint bs segms keypoints classes thresh kp_thresh show_box
               dataset show_class = Ok st →
  rendered (cv_im st) = filter (passes bs thresh) (paint_order bs).
Proof.
  intros Hpaint.
  apply opencv_loop_inv in Hpaint as (Hr & _); [|apply paint_order_in_range].
  exact Hr.
Qed.

Lemma nothing_to_render_kept boxes thresh :
  nothing_to_render boxes thresh = true →
  filter (passes (default [] boxes) thresh) (paint_order (default [] boxes))
  = [].
Proof.
  intros Hnothing.
  destruct (filter _ _) as [|i l] eqn:E; [done|].
  assert (Hi : i ∈ filter (passes (default [] boxes) thresh)
                      (paint_order (default [] boxes))).
  { rewrite E. apply list_elem_of_here. }
  apply kept_elem_of in Hi as [Hi Hpass].
  destruct boxes as [bs|]; [|simpl in Hi; lia].
  exfalso. eapply all_below_not_passes; [|exact Hi|exact Hpass].
  by eapply nothing_to_render_all_below.
Qed.

Lemma vis_one_image_opencv_rendered dets thresh kp_thresh show_box
    dataset show_class c :
  vis_one_image_opencv dets thresh kp_thresh show_box dataset show_class
  = Ok c →
  rendered c
  = filter (passes (detected_boxes dets) thresh)
           (paint_order (detected_boxes dets)).
Proof.
  unfold vis_one_image_opencv.
  destruct (unpack dets) as [[[boxes segms] keypoints] classes] eqn:Eu.
  rewrite (unpack_detected_boxes _ _ _ _ _ Eu).
  destruct (nothing_to_render boxes thresh) eqn:En.
  - intros [= <-]. by rewrite nothing_to_render_kept.
  - intros Hcall. apply bind_Ok_inv in Hcall as (st & Hpaint & Hc).
    injection Hc as <-. by eapply opencv_paint_rendered.
Qed.
End vis_one_image_opencv_props.

(** ** The plotting renderer and exporter *)

Section vis_one_image_props.
Context `{Collaborators}.

Lemma paint_order_nil : paint_order [] = [].
Proof. apply Permutation_nil_r. apply (paint_order_perm []). Qed.

Lemma plt_paint_loop boxes segms keypoints classes thresh kp_thresh
    dataset show_class :
  plt_paint boxes segms keypoints classes thresh kp_thresh dataset
            show_class
  = for_each
      (plt_body (default [] boxes) segms keypoints classes thresh
                kp_thresh dataset show_class)
      (paint_order (default [] boxes))
      {| temp_boxes := [mkBox 100 200 400 500 0.8];
         temp_classify_id_list := [];
         ax := [];
         mask_color_id := 0;
         color_list :=
           (λ c : Color, (c.1.1 / 255, c.1.2 / 255, c.2 / 255)%Q)
             <$> colormap true |}.
Proof.
  unfold plt_paint. destruct boxes as [bs|]; [done|].
  simpl. by rewrite paint_order_nil.
Qed.

Lemma plt_paint_inv boxes segms keypoints classes thresh kp_thresh
    dataset show_class st :
  plt_paint boxes segms keypoints classes thresh kp_thresh dataset
            show_class = Ok st →
  let bs := default [] boxes in
  let kept := filter (passes bs thresh) (paint_order bs) in
  rendered (ax st) = kept
  ∧ drop 1 (temp_boxes st) = (bs !!!.) <$> kept
  ∧ (if show_class
     then length (temp_classify_id_list st) = length kept
     else temp_classify_id_list st = []).
Proof.
  rewrite plt_paint_loop. intros Hloop bs kept.
  apply plt_loop_inv in Hloop as (Hr & Hb & Hc & _);
    [|apply paint_order_in_range].
  simpl in Hr, Hb, Hc. split_and!; [done| |].
  - by rewrite Hb.
  - destruct show_class; [|done].
    destruct Hc as (ids & -> & Hall).
    symmetry. by eapply Forall2_length.
Qed.

Lemma vis_one_image_inv im im_name output_dir dets thresh kp_thresh
    dataset show_class out_when_no_box o :
  vis_one_image im im_name output_dir dets thresh kp_thresh dataset
                show_class out_when_no_box = Ok (Some o) →
  let bs := detected_boxes dets in
  let kept := filter (passes bs thresh) (paint_order bs) in
  rendered (figure o) = kept
  ∧ obj_bndbox <$> ann_objects (xml_doc o)
    = (λ i, box_coords (bs !!! i)) <$> kept
  ∧ xml_file o
    = xml_path +:+ "/" +:+ drop_last 4 (basename im_name) +:+ ".xml"
  ∧ savefig_path o
    = path_join output_dir
        ((splitext (basename im_name)).1 +:+ (splitext (basename im_name)).2).
Proof.
  unfold vis_one_image.
  destruct (unpack dets) as [[[boxes segms] keypoints] classes] eqn:Eu.
  rewrite (unpack_detected_boxes _ _ _ _ _ Eu).
  destruct (nothing_to_render boxes thresh && negb out_when_no_box);
    [done|].
  intros Hcall. apply bind_Ok_inv in Hcall as (st & Hpaint & Hcall).
  apply bind_Ok_inv in Hcall as (rows & Hrows & Hcall).
  apply bind_Ok_inv in Hcall as ([file doc] & Hxml & Hcall).
  injection Hcall as <-. simpl.
  apply plt_paint_inv in Hpaint as (Hr & Hb & _).
  apply txt_file_func_inv in Hrows as (_ & Hboxes & _ & _ & Himage).
  apply xml_create_func_inv in Hxml as (Hobjs & _ & r & Hlast & Hfile).
  split_and!; [done| |  |done].
  - by rewrite Hobjs, Hboxes, Hb, <- list_fmap_compose.
  - rewrite Hfile. do 2 f_equal. f_equal. f_equal.
    rewrite Forall_forall in Himage. apply Himage.
    apply last_Some in Hlast as [rows' ->].
    apply elem_of_app. right. apply list_elem_of_here.
Qed.

(** An export that gets to the annotation file has kept a detection:
    [txt_file_func] does not return on an empty table. *)
Lemma vis_one_image_some_kept im im_name output_dir dets thresh kp_thresh
    dataset show_class out_when_no_box o :
  vis_one_image im im_name output_dir dets thresh kp_thresh dataset
                show_class out_when_no_box = Ok (Some o) →
  filter (passes (detected_boxes dets) thresh)
         (paint_order (detected_boxes dets)) ≠ [].
Proof.
  unfold vis_one_image.
  destruct (unpack dets) as [[[boxes segms] keypoints] classes] eqn:Eu.
  rewrite (unpack_detected_boxes _ _ _ _ _ Eu).
  destruct (nothing_to_render boxes thresh && negb out_when_no_box);
    [done|].
  intros Hcall. apply bind_Ok_inv in Hcall as (st & Hpaint & Hcall).
  apply bind_Ok_inv in Hcall as (rows & Hrows & _).
  apply plt_paint_inv in Hpaint as (_ & Hb & _).
  apply txt_file_func_inv in Hrows as (Hne & _).
  intros Hnone. apply Hne. rewrite Hb. cbn zeta. by rewrite Hnone.
Qed.

(** With [show_class] unset the label list stays empty while the table
    gets a box per detection kept: [txt_file_func] raises [IndexError] on
    the first box, before any file is written. *)
Lemma export_needs_labels im im_name output_dir dets thresh kp_thresh
    dataset out_when_no_box :
  filter (passes (detected_boxes dets) thresh)
         (paint_order (detected_boxes dets)) ≠ [] →
  vis_one_image im im_name output_dir dets thresh kp_thresh dataset
                false out_when_no_box = Raise IndexError.
Proof.
  unfold vis_one_image.
  destruct (unpack dets) as [[[boxes segms] keypoints] classes] eqn:Eu.
  rewrite (unpack_detected_boxes _ _ _ _ _ Eu).
  intros Hkept.
  destruct (nothing_to_render boxes thresh) eqn:En.
  { by rewrite nothing_to_render_kept in Hkept. }
  cbn [andb].
  destruct (plt_loop_no_class_total (default [] boxes) segms keypoints
              classes thresh kp_thresh dataset false
              (paint_order (default [] boxes))
              {| temp_boxes := [mkBox 100 200 400 500 0.8];
                 temp_classify_id_list := [];
                 ax := [];
                 mask_color_id := 0;
                 color_list :=
                   (λ c : Color, (c.1.1 / 255, c.1.2 / 255, c.2 / 255)%Q)
                     <$> colormap true |}
              eq_refl (paint_order_in_range _)) as [st Hloop].
  rewrite <- plt_paint_loop in Hloop. rewrite Hloop.
  cbn [mbind result_bind].
  apply plt_paint_inv in Hloop as (_ & Hb & Hc). cbn [negb] in Hc.
  rewrite Hb, Hc.
  destruct (filter _ _) as [|j kept]; [done|]. reflexivity.
Qed.

(** C1.  The score test keeps the detections with [score >= thresh], a
    score equal to the threshold included, and whatever either entry point
    returns shows exactly those, in paint order; an annotation record that
    [vis_one_image] writes has one object per such detection, with its
    box, so as many objects as there are detections with
    [score >= thresh].  But not every call exports them: called with
    [show_class] unset, the default, [vis_one_image] raises [IndexError]
    as soon as one detection is kept, and no record is written for the
    detections that passed. *)
Theorem score_filter_inclusive (dets : detections) (thresh kp_thresh : Q)
    (dataset : option (list string)) (show_class : bool) :
  let bs := detected_boxes dets in
  let kept := filter (passes bs thresh) (paint_order bs) in
  (∀ i, i ∈ kept ↔ i < length bs ∧ (thresh <= score (bs !!! i))%Q)
  ∧ (∀ i, i < length bs → (score (bs !!! i) == thresh)%Q → i ∈ kept)
  ∧ (∀ show_box c,
       vis_one_image_opencv dets thresh kp_thresh show_box dataset
                            show_class = Ok c →
       rendered c = kept)
  ∧ (∀ im im_name output_dir out_when_no_box o,
       vis_one_image im im_name output_dir dets thresh kp_thresh dataset
                     show_class out_when_no_box = Ok (Some o) →
       show_class = true
       ∧ rendered (figure o) = kept
       ∧ obj_bndbox <$> ann_objects (xml_doc o)
         = (λ i, box_coords (bs !!! i)) <$> kept
       ∧ length (ann_objects (xml_doc o))
         = length (filter (λ b, (thresh <= score b)%Q) bs))
  ∧ (∀ im im_name output_dir out_when_no_box,
       kept ≠ [] →
       vis_one_image im im_name output_dir dets thresh kp_thresh dataset
                     false out_when_no_box = Raise IndexError).
Proof.
  intros bs kept. split_and!.
  - apply kept_elem_of.
  - intros i Hi Heq. apply kept_elem_of. split; [done|].
    rewrite Heq. apply Qle_refl.
  - intros show_box c. apply vis_one_image_opencv_rendered.
  - intros im im_name output_dir out_when_no_box o Hcall.
    pose proof Hcall as Hinv.
    apply vis_one_image_inv in Hinv as (Hr & Hobjs & _).
    split_and!; [|done|done|].
    + destruct show_class; [done|].
      pose proof (vis_one_image_some_kept _ _ _ _ _ _ _ _ _ _ Hcall) as Hsome.
      by rewrite export_needs_labels in Hcall.
    + rewrite <- kept_length.
      rewrite <- (length_fmap obj_bndbox), Hobjs. by rewrite length_fmap.
  - intros im im_name output_dir out_when_no_box.
    apply export_needs_labels.
Qed.

(** C3. With nothing to render and [out_when_no_box] unset,
    [vis_one_image] returns early and writes nothing.  With
    [out_when_no_box] set it goes on to the export, where
    [txt_file_func] returns [temp_txt_total], which its loop over zero
    rows never assigned: [UnboundLocalError], before the annotation file
    or the image is written. *)
Theorem nothing_to_render_outcome (im : nat * nat * nat)
    (im_name output_dir : string) (dets : detections)
    (thresh kp_thresh : Q) (dataset : option (list string))
    (show_class : bool) :
  nothing_to_render (unpack dets).1.1.1 thresh = true →
  vis_one_image im im_name output_dir dets thresh kp_thresh dataset
                show_class false = Ok None
  ∧ vis_one_image im im_name output_dir dets thresh kp_thresh dataset
                  show_class true = Raise UnboundLocalError.
Proof.
  unfold vis_one_image.
  destruct (unpack dets) as [[[boxes segms] keypoints] classes] eqn:Eu.
  simpl. intros Hnothing. rewrite Hnothing. simpl. split; [done|].
  rewrite plt_paint_loop.
  rewrite plt_loop_nothing_passes.
  - simpl. reflexivity.
  - apply Forall_forall. intros i Hi. apply paint_order_lt in Hi.
    split; [done|].
    destruct boxes as [bs|]; [|simpl in Hi; lia].
    eapply all_below_not_passes; [|exact Hi].
    by eapply nothing_to_render_all_below.
Qed.

(** C10. With [show_class] unset and a detection whose score is not
    below the threshold, [vis_one_image] raises [IndexError]:
    [temp_boxes] has a row for the detection, the label list is empty,
    and [txt_file_func] indexes it at 0.  The exception leaves the
    function before the annotation file (and the image) is written. *)
Theorem export_without_labels_raises (im : nat * nat * nat)
    (im_name output_dir : string) (dets : detections)
    (thresh kp_thresh : Q) (dataset : option (list string))
    (out_when_no_box : bool) (i : nat) :
  i < length (detected_boxes dets) →
  (thresh <= score (detected_boxes dets !!! i))%Q →
  vis_one_image im im_name output_dir dets thresh kp_thresh dataset
                false out_when_no_box = Raise IndexError.
Proof.
  unfold vis_one_image.
  destruct (unpack dets) as [[[boxes segms] keypoints] classes] eqn:Eu.
  rewrite (unpack_detected_boxes _ _ _ _ _ Eu).
  intros Hi Hpass.
  assert (Hkept : i ∈ filter (passes (default [] boxes) thresh)
                          (paint_order (default [] boxes)))
    by by apply kept_elem_of.
  destruct (nothing_to_render boxes thresh) eqn:En.
  { rewrite nothing_to_render_kept in Hkept by done.
    by apply elem_of_nil in Hkept. }
  simpl.
  destruct (plt_loop_no_class_total (default [] boxes) segms keypoints
              classes thresh kp_thresh dataset false
              (paint_order (default [] boxes))
              {| temp_boxes := [mkBox 100 200 400 500 0.8];
                 temp_classify_id_list := [];
                 ax := [];
                 mask_color_id := 0;
                 color_list :=
                   (λ c : Color, (c.1.1 / 255, c.1.2 / 255, c.2 / 255)%Q)
                     <$> colormap true |}
              eq_refl (paint_order_in_range _)) as [st Hloop].
  rewrite <- plt_paint_loop in Hloop. rewrite Hloop. simpl.
  apply plt_paint_inv in Hloop as (_ & Hb & Hc). simpl in Hc.
  rewrite Hb, Hc.
  destruct (filter _ _) as [|j kept]; [by apply elem_of_nil in Hkept|].
  reflexivity.
Qed.
End vis_one_image_props.

(** ** The mask palette *)

Section mask_palette.
Context `{Collaborators}.

(** C9.  In a rendering pass the masks painted are those of the
    detections of the paint order that pass the score test and have a
    mask, in that order; the [k]-th of them (from 0) reads palette row
    [k mod len(color_list)], and [mask_color_id] ends at their number: a
    detection that is filtered out or has no mask takes no palette row.
    [vis_one_image_opencv] paints the mask with the colour of that row.
    [vis_one_image] paints it with the colour of that row lightened, and
    writes the lightened colour back into the row: a mask that reads a row
    the pass has read before is painted with that row's colour lightened
    once more than the mask before it in that row, not with the colour
    that mask received. *)
Theorem mask_palette_advance (bs : list Box) (segms : option (list Segm))
    (keypoints : option (list Kps)) (classes : option (list nat))
    (thresh kp_thresh : Q) (dataset : option (list string))
    (show_class : bool) :
  let masked :=
    filter (λ i, passes bs thresh i ∧ has_mask segms i) (paint_order bs) in
  (∀ show_box st,
     opencv_paint bs segms keypoints classes thresh kp_thresh show_box
                  dataset show_class = Ok st →
     masks_painted (cv_im st)
     = imap (λ k i, (i, k `mod` length (colormap false),
                     colormap false !!! (k `mod` length (colormap false))))
            masked
     ∧ cv_mask_color_id st = length masked)
  ∧ (∀ st,
       colormap true ≠ [] →
       plt_paint (Some bs) segms keypoints classes thresh kp_thresh
                 dataset show_class = Ok st →
       let palette :=
         (λ c : Color, (c.1.1 / 255, c.1.2 / 255, c.2 / 255)%Q)
           <$> colormap true in
       masks_painted (ax st)
       = imap (λ k i, (i, k `mod` length palette,
                       Nat.iter (S (k / length palette)) lighten
                                (palette !!! (k `mod` length palette))))
              masked
       ∧ mask_color_id st = length masked
       ∧ color_list st = palette_after (length masked) palette).
Proof.
  intros masked. split.
  - intros show_box st Hpaint.
    apply opencv_loop_inv in Hpaint as (_ & Hm & Hid);
      [|apply paint_order_in_range].
    simpl in Hm, Hid. by split.
  - intros st Hne Hpaint palette. rewrite plt_paint_loop in Hpaint.
    pose proof Hpaint as Hcount.
    apply plt_loop_inv in Hcount as (_ & _ & _ & _ & Hid & _);
      [|apply paint_order_in_range].
    assert (Hpalette : palette ≠ [])
      by (subst palette; by destruct (colormap true)).
    eapply (plt_loop_colours) with (palette := palette) in Hpaint
      as [Hm Hpal]; [|done|apply paint_order_in_range
                      |by rewrite palette_after_0].
    cbn [default from_option mask_color_id ax masks_painted] in Hm, Hid.
    fold masked in Hm, Hid. rewrite Nat.add_0_l in Hid.
    split_and!; [exact Hm | exact Hid | by rewrite Hpal, Hid].
Qed.
End mask_palette.

(** ** File names *)

Lemma of_chars_app (a b : list ascii) :
  of_chars (a ++ b) = of_chars a +:+ of_chars b.
Proof. induction a as [|c a IH]; [done|]. simpl. by rewrite IH. Qed.

Lemma chars_app (a b : string) : chars (a +:+ b) = chars a ++ chars b.
Proof. induction a as [|c a IH]; [done|]. simpl. by rewrite IH. Qed.

Lemma of_chars_chars (s : string) : of_chars (chars s) = s.
Proof. apply String.string_of_list_ascii_of_string. Qed.

Lemma length_chars (s : string) : length (chars s) = String.length s.
Proof. induction s as [|c s IH]; [done|]. simpl. by rewrite IH. Qed.

Lemma append_empty_r (s : string) : s +:+ EmptyString = s.
Proof.
  induction s as [|c s IH]; [done|].
  change (String c (s +:+ EmptyString) = String c s). by rewrite IH.
Qed.

Lemma splitext_join (p : string) : (splitext p).1 +:+ (splitext p).2 = p.
Proof.
  unfold splitext.
  destruct (rfind "." (chars p)) as [dotIndex|]; [|apply append_empty_r].
  case_decide; [|apply append_empty_r].
  simpl. by rewrite <- of_chars_app, take_drop, of_chars_chars.
Qed.

Lemma drop_last_app (k : nat) (stem ext : string) :
  String.length ext = k → drop_last k (stem +:+ ext) = stem.
Proof.
  intros Hk. unfold drop_last.
  rewrite chars_app, length_app, length_chars, length_chars, Hk.
  replace (String.length stem + k - k) with (length (chars stem))
    by (rewrite length_chars; lia).
  by rewrite take_app_length, of_chars_chars.
Qed.

Lemma split_no_sep (sep : ascii) (s : string) :
  Forall (λ f, sep ∉ chars f) (split sep s).
Proof.
  induction s as [|c s IH]; simpl.
  - repeat constructor. apply not_elem_of_nil.
  - case_decide as Hc.
    + constructor; [apply not_elem_of_nil | done].
    + destruct (split sep s) as [|f fs].
      * repeat constructor. simpl.
        rewrite not_elem_of_cons. split; [congruence|apply not_elem_of_nil].
      * apply Forall_cons_1 in IH as [Hf Hfs]. constructor; [|done].
        simpl. rewrite not_elem_of_cons. split; [congruence|done].
Qed.

Lemma basename_no_slash (p : string) : "/"%char ∉ chars (basename p).
Proof.
  unfold basename, last_item.
  pose proof (split_no_sep "/" p) as Hall.
  destruct (last (split "/" p)) as [f|] eqn:E; [|apply not_elem_of_nil].
  rewrite Forall_forall in Hall. apply Hall.
  apply last_Some in E as [l ->]. apply elem_of_app. right.
  apply list_elem_of_here.
Qed.

Lemma path_join_relative (a b : string) :
  "/"%char ∉ chars b →
  path_join a b
  = if decide (a = EmptyString) then b
    else if decide (last (chars a) = Some "/"%char) then a +:+ b
         else a +:+ "/" +:+ b.
Proof.
  intros Hb.
  assert (Hrel : path_join a b
                 = match last (chars a) with
                   | None => b
                   | Some "/"%char => a +:+ b
                   | Some _ => a +:+ "/" +:+ b
                   end).
  { unfold path_join. destruct b as [|c b]; [done|].
    assert (c ≠ "/"%char) as Hc.
    { intros ->. apply Hb. simpl. apply list_elem_of_here. }
    destruct c as [[] [] [] [] [] [] [] []]; first [done | by destruct Hc]. }
  rewrite Hrel. destruct (decide (a = EmptyString)) as [->|Ha]; [done|].
  destruct (last (chars a)) as [d|] eqn:Ed.
  - destruct (decide (Some d = Some "/"%char)) as [[= ->]|Hd]; [done|].
    destruct d as [[] [] [] [] [] [] [] []]; first [done | by destruct Hd].
  - destruct a as [|c a]; [done|].
    apply last_None in Ed. simpl in Ed. discriminate.
Qed.

Lemma chars_of_chars (l : list ascii) : chars (of_chars l) = l.
Proof. apply String.list_ascii_of_string_of_list_ascii. Qed.

Lemma drop_last_no_slash (k : nat) (s : string) :
  "/"%char ∉ chars s → "/"%char ∉ chars (drop_last k s).
Proof.
  intros Hs Hin. apply Hs. unfold drop_last in Hin.
  rewrite chars_of_chars in Hin.
  apply elem_of_take in Hin as (i & Hi & _). by eapply list_elem_of_lookup_2.
Qed.

Section file_names.
Context `{Collaborators}.

(** C4, as the code has it.  Whenever [vis_one_image] gets to write the
    annotation file, the file is written directly in the fixed directory
    [xml_path], whatever [output_dir] is, under a name that ends in
    [.xml]; when the extension of the base name of [im_name] has four
    characters (the dot and three more), the file is named after the base
    name with the extension replaced by [.xml]. *)
Theorem xml_file_location (im : nat * nat * nat)
    (im_name output_dir : string) (dets : detections)
    (thresh kp_thresh : Q) (dataset : option (list string))
    (show_class out_when_no_box : bool) (o : outputs) :
  vis_one_image im im_name output_dir dets thresh kp_thresh dataset
                show_class out_when_no_box = Ok (Some o) →
  (∃ name, xml_file o = xml_path +:+ "/" +:+ name +:+ ".xml"
           ∧ "/"%char ∉ chars name)
  ∧ (∀ stem ext,
       splitext (basename im_name) = (stem, ext) →
       String.length ext = 4 →
       xml_file o = xml_path +:+ "/" +:+ stem +:+ ".xml").
Proof.
  intros Hcall.
  apply vis_one_image_inv in Hcall as (_ & _ & Hxml & _). split.
  - exists (drop_last 4 (basename im_name)). split; [done|].
    apply drop_last_no_slash, basename_no_slash.
  - intros stem ext Hsplit Hext. rewrite Hxml.
    pose proof (splitext_join (basename im_name)) as Hjoin.
    rewrite Hsplit in Hjoin. simpl in Hjoin.
    by rewrite <- Hjoin, drop_last_app.
Qed.
End file_names.

(** ** Runs on concrete inputs *)

(** C4, an image named [photo.jpeg] exported with [output_dir = "out"]:
    the annotation file is [photo..xml] in the fixed directory, not
    [out/photo.xml]. *)
Lemma xml_file_of_photo_jpeg :
  ∃ o,
    @vis_one_image stable_collaborators (480, 640, 3) "/imgs/photo.jpeg"
                   "out" one_detection 0.9 2 None true false = Ok (Some o)
    ∧ xml_file o = "/data/yang/detectron/output/xml_files/photo..xml"
    ∧ path_join "out" ((splitext (basename "/imgs/photo.jpeg")).1 +:+ ".xml")
      = "out/photo.xml"
    ∧ xml_file o
      ≠ path_join "out"
          ((splitext (basename "/imgs/photo.jpeg")).1 +:+ ".xml").
Proof.
  eexists. split; [by vm_compute|].
  split; [by vm_compute|]. split; [by vm_compute|]. by vm_compute.
Qed.

Lemma xml_file_location_witness :
  ∃ o,
    @vis_one_image stable_collaborators (480, 640, 3) "/imgs/a.jpg"
                   "out" one_detection 0.9 2 None true false = Ok (Some o)
    ∧ splitext (basename "/imgs/a.jpg") = ("a", ".jpg")
    ∧ xml_file o = "/data/yang/detectron/output/xml_files/a.xml".
Proof.
  eexists. split; [by vm_compute|]. split; [by vm_compute|].
  refine (proj2 (@xml_file_location stable_collaborators (480, 640, 3)
                   "/imgs/a.jpg" "out" one_detection 0.9 2 None true false
                   _ _) "a" ".jpg" _ _);
    by vm_compute.
Defined.

Lemma nothing_to_render_outcome_witness :
  nothing_to_render ((unpack one_low_detection).1.1.1) 0.9%Q = true
  ∧ @vis_one_image stable_collaborators (480, 640, 3) "/imgs/a.jpg" "out"
      one_low_detection 0.9 2 None false false = Ok None
  ∧ @vis_one_image stable_collaborators (480, 640, 3) "/imgs/a.jpg" "out"
      one_low_detection 0.9 2 None false true = Raise UnboundLocalError.
Proof.
  split; [by vm_compute|].
  apply (@nothing_to_render_outcome stable_collaborators). by vm_compute.
Defined.

Lemma export_without_labels_raises_witness :
  0 < length (detected_boxes one_detection)
  ∧ (0.9 <= score (detected_boxes one_detection !!! 0%nat))%Q
  ∧ @vis_one_image stable_collaborators (480, 640, 3) "/imgs/a.jpg" "out"
      one_detection 0.9 2 None false false = Raise IndexError.
Proof.
  split; [by vm_compute|]. split; [by vm_compute|].
  apply (@export_without_labels_raises stable_collaborators _ _ _ _ _ _ _ _ 0);
    by vm_compute.
Defined.

Lemma score_filter_inclusive_witness :
  ∃ c o,
    @vis_one_image_opencv stable_collaborators three_detections 0.9 2 true
                          None true = Ok c
    ∧ rendered c = [0; 2]
    ∧ @vis_one_image stable_collaborators (480, 640, 3) "/imgs/a.jpg" "out"
                     three_detections 0.9 2 None true false = Ok (Some o)
    ∧ rendered (figure o) = [0; 2]
    ∧ obj_bndbox <$> ann_objects (xml_doc o)
      = [(0, 0, 10, 5)%Q; (0, 0, 6, 5)%Q]
    ∧ length (ann_objects (xml_doc o)) = 2
    ∧ @vis_one_image stable_collaborators (480, 640, 3) "/imgs/a.jpg" "out"
                     three_detections 0.9 2 None false false
      = Raise IndexError.
Proof.
  destruct (@score_filter_inclusive stable_collaborators three_detections
              0.9 2 None true) as (_ & _ & Hcv & Hexport & Hraise).
  eexists _, _. split; [by vm_compute|].
  split; [etrans; [by apply (Hcv true) | by vm_compute]|].
  split; [by vm_compute|].
  destruct (Hexport (480, 640, 3) "/imgs/a.jpg" "out" false _ eq_refl)
    as (_ & Hfig & Hboxes & Hcount).
  split; [etrans; [exact Hfig | by vm_compute]|].
  split; [etrans; [exact Hboxes | by vm_compute]|].
  split; [etrans; [exact Hcount | by vm_compute]|].
  apply Hraise. by vm_compute.
Defined.


(** With the three-row palette: three detections of which two pass, in
    the OpenCV pass; four masks in the plotting pass, the fourth of which
    reads row 0 again and is painted with that row lightened twice. *)
Lemma mask_palette_advance_witness :
  let row k : Color :=
    ((λ c : Color, (c.1.1 / 255, c.1.2 / 255, c.2 / 255)%Q)
       <$> small_palette true) !!! k in
  ∃ st st',
    @opencv_paint stable_collaborators three_boxes (Some three_segms) None
                  None 0.9 2 false None false = Ok st
    ∧ masks_painted (cv_im st)
      = [(0, 0, (189, 114, 0)%Q); (2, 1, (25, 83, 217)%Q)]
    ∧ cv_mask_color_id st = 2
    ∧ @plt_paint stable_collaborators (Some four_boxes) (Some four_segms)
                 None None 0.9 2 None false = Ok st'
    ∧ masks_painted (ax st')
      = [(0, 0, lighten (row 0)); (1, 1, lighten (row 1));
         (2, 2, lighten (row 2)); (3, 0, lighten (lighten (row 0)))]
    ∧ mask_color_id st' = 4.
Proof.
  intros row. eexists _, _. split; [by vm_compute|].
  destruct (@mask_palette_advance stable_collaborators three_boxes
              (Some three_segms) None None 0.9 2 None false)
    as [Hcv _].
  destruct (Hcv false _ eq_refl) as [Hmasks Hid].
  split; [etrans; [exact Hmasks | by vm_compute]|].
  split; [etrans; [exact Hid | by vm_compute]|].
  split; [by vm_compute|].
  destruct (@mask_palette_advance stable_collaborators four_boxes
              (Some four_segms) None None 0.9 2 None false)
    as [_ Hplt].
  destruct (Hplt _ ltac:(done) eq_refl) as (Hmasks' & Hid' & _).
  split; [etrans; [exact Hmasks' | by vm_compute]|].
  etrans; [exact Hid' | by vm_compute].
Defined.

(** * Further properties *)

(** ** Format normaliser: index alignment *)

Section alignment.
Context {X : Type}.

Lemma zip_replicate_l (j : nat) (xs : list X) :
  zip (replicate (length xs) j) xs = (j,.) <$> xs.
Proof. induction xs as [|x xs IH]; [done|]. simpl. by rewrite IH. Qed.

Lemma labelled_from_zip {B} (n : nat) (bss : list (list B))
    (xss : list (list X)) :
  Forall2 (λ bs xs, length bs = length xs) bss xss →
  zip (concat (imap (λ j bs, replicate (length bs) (n + j)) bss))
      (concat xss)
  = concat (imap (λ j xs, (n + j,.) <$> xs) xss).
Proof.
  intros Hshape. revert n.
  induction Hshape as [|bs xs bss xss Hlen _ IH]; intros n; [done|].
  simpl. rewrite zip_with_app by (by rewrite length_replicate).
  rewrite Hlen, zip_replicate_l. f_equal.
  erewrite imap_ext; [erewrite (imap_ext _ _ xss); [apply (IH (S n))|]|].
  - intros j x _. simpl. by rewrite Nat.add_succ_r.
  - intros j x _. simpl. by rewrite Nat.add_succ_r.
Qed.
End alignment.

Lemma labelled_zip {B X} (bss : list (list B)) (xss : list (list X)) :
  Forall2 (λ bs xs, length bs = length xs) bss xss →
  zip (classes_spec bss) (concat xss) = labelled xss.
Proof. intros Hshape. apply (labelled_from_zip 0 bss xss Hshape). Qed.

(** X1. The flat outputs of [convert_from_cls_format] are index-aligned:
    position by position, the class sequence paired with the flat boxes
    is each box with the index of the class list it comes from; the same
    holds of the flat masks (keypoints) when every class has as many
    masks (keypoints) as boxes. *)
Theorem convert_from_cls_format_aligned {B S K : Type}
    (cls_boxes : list (list B)) (cls_segms : option (list (list S)))
    (cls_keyps : option (list (list K))) :
  let '(boxes, segms, keyps, classes) :=
    convert_from_cls_format cls_boxes cls_segms cls_keyps in
  zip classes (default [] boxes) = labelled cls_boxes
  ∧ (∀ ss, cls_segms = Some ss →
       Forall2 (λ bs s, length bs = length s) cls_boxes ss →
       zip classes (default [] segms) = labelled ss)
  ∧ (∀ ks, cls_keyps = Some ks →
       Forall2 (λ bs k, length bs = length k) cls_boxes ks →
       zip classes (default [] keyps) = labelled ks).
Proof.
  unfold convert_from_cls_format.
  rewrite classes_loop_classes_spec. split_and!.
  - assert (Hboxes :
      default [] (if decide (0 < length (filter (λ b, 0 < length b) cls_boxes))
                  then Some (concat (filter (λ b, 0 < length b) cls_boxes))
                  else None) = concat cls_boxes).
    { case_decide as Hne; simpl; [apply concat_nonempty_filter|].
      rewrite <- concat_nonempty_filter.
      destruct (filter _ cls_boxes); [done | simpl in Hne; lia]. }
    rewrite Hboxes. apply labelled_zip.
    clear Hboxes. induction cls_boxes; constructor; done.
  - intros ss -> Hshape. simpl. by apply labelled_zip.
  - intros ks -> Hshape. simpl. by apply labelled_zip.
Qed.

Lemma convert_from_cls_format_aligned_witness :
  zip [1; 1; 2] [10; 11; 20] = labelled [[]; [10; 11]; [20]]
  ∧ zip [1; 1; 2] ["a"; "b"; "c"] = labelled [[]; ["a"; "b"]; ["c"]].
Proof.
  pose proof (convert_from_cls_format_aligned
                [[]; [10; 11]; [20]] (Some [[]; ["a"; "b"]; ["c"]])
                (@None (list (list nat)))) as (Hb & Hs & _).
  split; [exact Hb|].
  apply (Hs _ eq_refl). repeat constructor.
Defined.

(** ** Identity mapper: distinct labels *)

(** X2. Two different class indices of the table get different labels:
    on [1..7] the identity mapping is one-to-one. *)
Theorem id_map_func_distinct_labels (i j : nat) :
  1 ≤ i ≤ 7 → 1 ≤ j ≤ 7 → i ≠ j → id_map_func [i] ≠ id_map_func [j].
Proof.
  intros Hi Hj Hij. rewrite !id_map_func_fmap. simpl.
  rewrite !decide_True by done.
  assert (i = 1 ∨ i = 2 ∨ i = 3 ∨ i = 4 ∨ i = 5 ∨ i = 6 ∨ i = 7)
    as Hi' by lia.
  assert (j = 1 ∨ j = 2 ∨ j = 3 ∨ j = 4 ∨ j = 5 ∨ j = 6 ∨ j = 7)
    as Hj' by lia.
  destruct Hi' as [->|[->|[->|[->|[->|[->| ->]]]]]];
    destruct Hj' as [->|[->|[->|[->|[->|[->| ->]]]]]];
    try done; simpl; discriminate.
Qed.

Lemma id_map_func_distinct_labels_witness :
  id_map_func [1] ≠ id_map_func [2].
Proof. apply id_map_func_distinct_labels; lia. Defined.

(** ** Keypoint schema lookups *)

Lemma index_lookup (name : string) (keypoints : list string) :
  name ∈ keypoints →
  keypoints !! index name keypoints = Some name
  ∧ index name keypoints < length keypoints.
Proof.
  intros Hin. unfold index.
  destruct (list_find_elem_of (λ k, k = name) keypoints name Hin eq_refl)
    as [[i x] Hfind].
  rewrite Hfind. apply list_find_Some in Hfind as (Hi & -> & _).
  split; [done|]. by eapply lookup_lt_Some.
Qed.

Lemma index_inj (a b : string) (keypoints : list string) :
  a ∈ keypoints → b ∈ keypoints →
  index a keypoints = index b keypoints → a = b.
Proof.
  intros Ha Hb E.
  destruct (index_lookup a keypoints Ha) as [Ea _].
  destruct (index_lookup b keypoints Hb) as [Eb _].
  rewrite E in Ea. congruence.
Qed.

(** X3. For a schema that lists the seventeen joint names, every limb of
    [kp_connections] joins two different joints of the schema: both
    endpoint indices are in range and they differ. *)
Theorem kp_connections_in_schema (keypoints : list string) :
  Forall (λ name, name ∈ keypoints) coco_keypoints →
  length (kp_connections keypoints) = 15
  ∧ Forall (λ line, line.1 < length keypoints
                    ∧ line.2 < length keypoints
                    ∧ line.1 ≠ line.2)
           (kp_connections keypoints).
Proof.
  intros Hnames. split; [done|].
  rewrite Forall_forall in Hnames.
  assert (Hin : ∀ name, In name coco_keypoints → name ∈ keypoints).
  { intros name Hname. apply Hnames. by apply list_elem_of_In. }
  unfold kp_connections.
  repeat (apply Forall_cons; split; [|]); [..|apply Forall_nil_2];
    simpl;
    (split_and!;
     [ apply index_lookup, Hin; simpl; tauto
     | apply index_lookup, Hin; simpl; tauto
     | intros E; apply index_inj in E;
       [discriminate | apply Hin; simpl; tauto | apply Hin; simpl; tauto] ]).
Qed.

Lemma kp_connections_in_schema_witness :
  Forall (λ line, line.1 < 17 ∧ line.2 < 17 ∧ line.1 ≠ line.2)
         (kp_connections coco_keypoints).
Proof.
  apply (kp_connections_in_schema coco_keypoints).
  apply Forall_forall. by intros name Hname.
Defined.

(** ** Keypoint skeleton: the two renderers together *)

Lemma concat_imap_nil {A B} (f : nat → A → list B) (l : list A) :
  (∀ i x, l !! i = Some x → f i x = []) → concat (imap f l) = [].
Proof.
  revert f. induction l as [|a l IH]; intros f Hf; [done|].
  simpl. rewrite (Hf 0 a eq_refl). simpl. apply IH.
  intros i x Hi. by apply (Hf (S i)).
Qed.

Lemma kp_connections_in_range (keypoints : list string) :
  Forall (λ name, name ∈ keypoints) coco_keypoints →
  Forall (λ line, line.1 < length keypoints ∧ line.2 < length keypoints)
         (kp_connections keypoints).
Proof.
  intros Hnames. rewrite Forall_forall in Hnames.
  assert (Hin : ∀ name, In name coco_keypoints → name ∈ keypoints).
  { intros name Hname. apply Hnames. by apply list_elem_of_In. }
  unfold kp_connections.
  repeat (apply Forall_cons; split; [|]); [..|apply Forall_nil_2];
    simpl; (split; apply index_lookup, Hin; simpl; tauto).
Qed.

Section skeleton_more.
Context `{Collaborators}.

(** X5. For a keypoint array with a column per joint of a schema that
    lists the seventeen joint names: when no joint has a confidence above
    the threshold, neither renderer draws anything for the keypoint set,
    whatever the sign of the threshold. *)
Theorem keypoints_all_hidden (kps : Kps) (kp_thresh : Q) :
  Forall (λ name, name ∈ get_keypoints) coco_keypoints →
  length kps = length get_keypoints →
  Forall (λ j, (logit j <= kp_thresh)%Q) kps →
  vis_keypoints kps kp_thresh = [] ∧ plot_keypoints kps kp_thresh = [].
Proof.
  intros Hnames Hshape Hhidden.
  assert (Hno : ∀ i, i < length get_keypoints →
                     ¬ (kp_thresh < logit (kps !!! i))%Q).
  { intros i Hi Hlt. apply (Qlt_not_le _ _ Hlt).
    rewrite Forall_forall in Hhidden. apply Hhidden.
    apply list_elem_of_lookup_total_2. by rewrite Hshape. }
  assert (Hidx : ∀ name, In name coco_keypoints →
                         index name get_keypoints < length get_keypoints).
  { intros name Hname. apply index_lookup.
    rewrite Forall_forall in Hnames. apply Hnames.
    by apply list_elem_of_In. }
  assert (Hlimbs : concat (imap (draw_limb kps kp_thresh)
                                (kp_connections get_keypoints)) = []).
  { apply concat_imap_nil. intros l [i1 i2] Hl.
    pose proof (kp_connections_in_range get_keypoints Hnames) as Hrange.
    rewrite Forall_forall in Hrange.
    destruct (Hrange (i1, i2)) as [H1 H2];
      [by eapply list_elem_of_lookup_2|]. simpl in H1, H2.
    unfold draw_limb. simpl.
    rewrite !decide_False; [done|by apply Hno..|].
    intros [Hlt _]. by apply (Hno i1). }
  assert (Hmids : draw_mid_segments get_keypoints
                    (length (kp_connections get_keypoints)) kps kp_thresh
                  = []).
  { unfold draw_mid_segments, sc_mid.
    rewrite !decide_False; [done|..];
      rewrite Qlt_min_iff; intros [[Hlt _] _]; revert Hlt;
      apply Hno, Hidx; simpl; tauto. }
  unfold vis_keypoints, plot_keypoints. simpl in *.
  by rewrite Hlimbs, Hmids.
Qed.

End skeleton_more.

Lemma keypoints_all_hidden_witness :
  @vis_keypoints stable_collaborators (replicate 17 (mkJoint 5 5 (-5) 1))
                 (-1) = []
  ∧ @plot_keypoints stable_collaborators (replicate 17 (mkJoint 5 5 (-5) 1))
                    (-1) = [].
Proof.
  apply (@keypoints_all_hidden stable_collaborators).
  - apply Forall_forall. by intros name Hname.
  - done.
  - apply Forall_replicate. by vm_compute.
Defined.

(** ** The early exit and the score test *)

Lemma max_score_below (m thresh : Q) (bs : list Box) :
  (m < thresh)%Q → Forall (λ b, (score b < thresh)%Q) bs →
  (foldl (λ m b', Qmax m (score b')) m bs < thresh)%Q.
Proof.
  intros Hm Hall. revert m Hm.
  induction Hall as [|b bs Hb _ IH]; intros m Hm; [done|].
  simpl. apply IH. by apply Q.max_lub_lt.
Qed.

Section early_exit.
Context `{Collaborators}.

(** X6. The early-exit test holds exactly when every detection has a
    score below the threshold, that is, exactly when the score test of the
    loop would keep no detection: the early exit never drops a detection
    the loop would have painted. *)
Theorem nothing_to_render_iff (boxes : option (list Box)) (thresh : Q) :
  (nothing_to_render boxes thresh = true
   ↔ Forall (λ b, (score b < thresh)%Q) (default [] boxes))
  ∧ (nothing_to_render boxes thresh = true
     ↔ filter (passes (default [] boxes) thresh)
              (paint_order (default [] boxes)) = []).
Proof.
  assert (Hiff : nothing_to_render boxes thresh = true
                 ↔ Forall (λ b, (score b < thresh)%Q) (default [] boxes)).
  { split.
    - intros Hnothing. destruct boxes as [bs|]; [|constructor].
      by eapply nothing_to_render_all_below.
    - destruct boxes as [[|b bs]|]; [done| |done].
      simpl. intros Hall. apply Forall_cons_1 in Hall as [Hb Hbs].
      apply bool_decide_eq_true. by apply max_score_below. }
  split; [exact Hiff|]. split; [apply nothing_to_render_kept|].
  intros Hkept. apply Hiff. apply Forall_forall. intros b Hb.
  apply list_elem_of_lookup_total in Hb as (i & Hi & <-).
  apply Qnot_le_lt. intros Hpass.
  assert (Hin : i ∈ filter (passes (default [] boxes) thresh)
                       (paint_order (default [] boxes)))
    by by apply kept_elem_of.
  rewrite Hkept in Hin. by apply elem_of_nil in Hin.
Qed.
End early_exit.

(** ** Raising loops *)

Lemma for_each_raises {A S} (body : A → S → result S) (xs : list A)
    (s : S) (e : exn) (x : A) :
  (∀ y s', y ∈ xs → body y s' = Ok s' ∨ body y s' = Raise e) →
  x ∈ xs → (∀ s', body x s' = Raise e) →
  for_each body xs s = Raise e.
Proof.
  intros Hbody Hx Hraise. revert s.
  induction xs as [|y xs IH]; intros s; [by apply elem_of_nil in Hx|].
  simpl. apply elem_of_cons in Hx as [<-|Hx].
  - by rewrite Hraise.
  - destruct (Hbody y s (list_elem_of_here _ _)) as [-> | ->]; [|done].
    simpl. apply IH; [|done]. intros z s' Hz. apply Hbody. by right.
Qed.

(** ** Labels on flat input *)

Section flat_labels.
Context `{Collaborators}.

Lemma opencv_body_unbound_classes boxes segms keypoints thresh kp_thresh
    show_box dataset palette i st :
  i < length boxes →
  opencv_body boxes segms keypoints None thresh kp_thresh show_box dataset
              true palette i st
  = if decide (passes boxes thresh i) then Raise UnboundLocalError else Ok st.
Proof.
  intros Hi. unfold opencv_body.
  rewrite getitem_lookup_total by done. simpl.
  destruct (decide (score (boxes !!! i) < thresh)%Q) as [Hlow|Hpass].
  - rewrite decide_False; [done|]. rewrite passes_not_below. tauto.
  - rewrite decide_True; [done|]. by apply passes_not_below.
Qed.

Lemma plt_body_unbound_classes boxes segms keypoints thresh kp_thresh
    dataset i st :
  i < length boxes →
  plt_body boxes segms keypoints None thresh kp_thresh dataset true i st
  = if decide (passes boxes thresh i) then Raise UnboundLocalError else Ok st.
Proof.
  intros Hi. unfold plt_body.
  rewrite getitem_lookup_total by done. simpl.
  destruct (decide (score (boxes !!! i) < thresh)%Q) as [Hlow|Hpass].
  - rewrite decide_False; [done|]. rewrite passes_not_below. tauto.
  - rewrite decide_True; [done|]. by apply passes_not_below.
Qed.

(** X8. [classes] is only assigned when [boxes] is a list.  Called with
    flat arrays and [show_class] set, both entry points raise
    [UnboundLocalError] as soon as a detection passes the score test, and
    nothing is drawn or written. *)
Theorem show_class_on_flat_arrays (bs : list Box)
    (segms : option (list Segm)) (keypoints : option (list Kps))
    (thresh kp_thresh : Q) (show_box : bool)
    (dataset : option (list string)) (i : nat) :
  i < length bs →
  (thresh <= score (bs !!! i))%Q →
  vis_one_image_opencv (FlatFormat (Some bs) segms keypoints) thresh
                       kp_thresh show_box dataset true
  = Raise UnboundLocalError
  ∧ ∀ im im_name output_dir out_when_no_box,
      vis_one_image im im_name output_dir
                    (FlatFormat (Some bs) segms keypoints) thresh kp_thresh
                    dataset true out_when_no_box
      = Raise UnboundLocalError.
Proof.
  intros Hi Hpass.
  assert (Hkept : i ∈ filter (passes bs thresh) (paint_order bs))
    by by apply kept_elem_of.
  assert (Hexit : nothing_to_render (Some bs) thresh = false).
  { destruct (nothing_to_render (Some bs) thresh) eqn:En; [|done].
    apply (nothing_to_render_kept (Some bs)) in En. simpl in En.
    rewrite En in Hkept. by apply elem_of_nil in Hkept. }
  apply list_elem_of_filter in Hkept as [_ Hin].
  split.
  - unfold vis_one_image_opencv. cbn [unpack]. rewrite Hexit.
    unfold opencv_paint. cbn [default from_option].
    rewrite (for_each_raises _ _ _ UnboundLocalError i); [done| |done|].
    + intros j st Hj. rewrite opencv_body_unbound_classes
        by by apply paint_order_lt.
      case_decide; auto.
    + intros st. rewrite opencv_body_unbound_classes by done.
      by rewrite decide_True.
  - intros im im_name output_dir out_when_no_box.
    unfold vis_one_image. cbn [unpack]. rewrite Hexit. cbn [andb].
    unfold plt_paint. cbn [default from_option].
    rewrite (for_each_raises _ _ _ UnboundLocalError i); [done| |done|].
    + intros j st Hj. simpl. rewrite plt_body_unbound_classes
        by by apply paint_order_lt.
      case_decide; auto.
    + intros st. simpl. rewrite plt_body_unbound_classes by done.
      by rewrite decide_True.
Qed.
End flat_labels.

Lemma show_class_on_flat_arrays_witness :
  @vis_one_image_opencv stable_collaborators
    (FlatFormat (Some three_boxes) None None) 0.9 2 false None true
  = Raise UnboundLocalError
  ∧ @vis_one_image stable_collaborators (480, 640, 3) "/imgs/a.jpg" "out"
      (FlatFormat (Some three_boxes) None None) 0.9 2 None true false
    = Raise UnboundLocalError.
Proof.
  assert (Hi : 0 < length three_boxes) by (simpl; lia).
  assert (Hpass : (0.9 <= score (three_boxes !!! 0%nat))%Q) by (by vm_compute).
  destruct (@show_class_on_flat_arrays stable_collaborators three_boxes
              None None 0.9 2 false None 0 Hi Hpass) as [Hcv Hplt].
  split; [exact Hcv | apply Hplt].
Defined.

(** ** The annotation table, case by case *)

Section txt_file_func_outcome.
Variables (txt_image : string) (txt_label_list : list (option string))
          (txt_boxes : list Box).

Let body (i : nat) (temp_txt_total : option (list txt_row))
  : result (option (list txt_row)) :=
  temp_label_i ← getitem txt_label_list i;
  b ← getitem txt_boxes i;
  let temp_text :=
    {| row_image := txt_image;
       row_label := temp_label_i;
       row_box := (x_min b, y_min b, x_max b, y_max b) |} in
  if decide (i = 0) then Ok (Some [temp_text])
  else total ← read_local temp_txt_total;
       Ok (Some (total ++ [temp_text])).

Let rows := zip_with (table_row txt_image) txt_label_list txt_boxes.

Let table_after (k : nat) : option (list txt_row) :=
  if decide (k = 0) then None else Some (take k rows).

Lemma txt_file_func_step_ok k :
  k < length txt_boxes → k < length txt_label_list →
  body k (table_after k) = Ok (table_after (S k)).
Proof.
  intros Hb Hl. unfold body.
  rewrite !getitem_lookup_total by lia. cbn [mbind result_bind].
  assert (Hrow : rows !! k
                 = Some (table_row txt_image (txt_label_list !!! k)
                                   (txt_boxes !!! k))).
  { unfold rows. rewrite lookup_zip_with.
    destruct (lookup_lt_is_Some_2 txt_label_list k Hl) as [l El].
    destruct (lookup_lt_is_Some_2 txt_boxes k Hb) as [b Eb].
    rewrite El, Eb. simpl.
    by rewrite (list_lookup_total_correct _ _ _ El),
      (list_lookup_total_correct _ _ _ Eb). }
  unfold table_after. rewrite (decide_False (P := S k = 0)) by lia.
  rewrite (take_S_r _ _ _ Hrow).
  destruct (decide (k = 0)) as [->|Hk]; done.
Qed.

Lemma txt_file_func_loop_ok n k :
  k + n ≤ length txt_boxes → k + n ≤ length txt_label_list →
  for_each body (seq k n) (table_after k) = Ok (table_after (k + n)).
Proof.
  revert k. induction n as [|n IH]; intros k Hb Hl.
  { simpl. by rewrite Nat.add_0_r. }
  cbn [seq for_each]. rewrite txt_file_func_step_ok by lia.
  cbn [mbind result_bind]. rewrite IH by lia. f_equal. f_equal. lia.
Qed.

Lemma txt_file_func_cases :
  txt_file_func txt_image txt_label_list txt_boxes
  = if decide (txt_boxes = []) then Raise UnboundLocalError
    else if decide (length txt_boxes ≤ length txt_label_list) then Ok rows
    else Raise IndexError.
Proof.
  unfold txt_file_func. fold body.
  destruct (decide (txt_boxes = [])) as [->|Hne]; [done|].
  assert (0 < length txt_boxes) by (destruct txt_boxes; [done|simpl; lia]).
  destruct (decide (length txt_boxes ≤ length txt_label_list)) as [Hle|Hgt].
  - change None with (table_after 0).
    rewrite txt_file_func_loop_ok by (simpl; lia). simpl.
    unfold table_after. rewrite decide_False by lia. simpl.
    f_equal. apply take_ge. unfold rows. rewrite length_zip_with. lia.
  - replace (length txt_boxes)
      with (length txt_label_list
            + S (length txt_boxes - S (length txt_label_list))) by lia.
    rewrite seq_app, for_each_app.
    change None with (table_after 0).
    rewrite txt_file_func_loop_ok by (simpl; lia).
    cbn [mbind result_bind seq for_each].
    assert (Hstep : ∀ total, body (length txt_label_list) total
                             = Raise IndexError).
    { intros total. unfold body, getitem.
      by rewrite (lookup_ge_None_2 txt_label_list) by lia. }
    by rewrite Hstep.
Qed.
End txt_file_func_outcome.

(** X9. [txt_file_func] case by case.  With no box it raises
    [UnboundLocalError] (the table is never assigned); with fewer labels
    than boxes it raises [IndexError]; otherwise it returns one row per
    box, in order, pairing the [i]-th label with the [i]-th box under the
    image name, and ignores the labels beyond the last box. *)
Theorem txt_file_func_outcome (txt_image : string)
    (txt_label_list : list (option string)) (txt_boxes : list Box) :
  txt_file_func txt_image txt_label_list txt_boxes
  = if decide (txt_boxes = []) then Raise UnboundLocalError
    else if decide (length txt_boxes ≤ length txt_label_list)
         then Ok (zip_with (table_row txt_image) txt_label_list txt_boxes)
         else Raise IndexError.
Proof. apply txt_file_func_cases. Qed.

(** ** The annotation record, case by case *)

Lemma xml_objects_loop_cases (rows : list txt_row)
    (objects : list xml_object) (name : option string) :
  for_each
    (λ txt_row '(objects, _),
       txt_name ← createTextNode (row_label txt_row);
       Ok (objects ++ [ {| obj_name := txt_name;
                           obj_pose := "Unspecified";
                           obj_truncated := "0";
                           obj_difficult := "0";
                           obj_bndbox := row_box txt_row |} ],
           Some (row_image txt_row)))
    rows (objects, name)
  = if decide (Exists (λ r, row_label r = None) rows) then Raise TypeError
    else Ok (objects ++ (object_of_row <$> rows),
             match last rows with
             | Some r => Some (row_image r)
             | None => name
             end).
Proof.
  revert objects name. induction rows as [|r rows IH]; intros objects name.
  { destruct (decide (Exists _ [])) as [Hex|_];
      [by apply Exists_nil in Hex|].
    simpl. by rewrite app_nil_r. }
  cbn [for_each].
  destruct (row_label r) as [lbl|] eqn:El; cbn [createTextNode mbind
                                                result_bind].
  - rewrite IH.
    destruct (decide (Exists _ rows)) as [Hex|Hex];
      destruct (decide (Exists _ (r :: rows))) as [Hex'|Hex'].
    + done.
    + exfalso. apply Hex'. by apply Exists_cons_tl.
    + exfalso. apply Exists_cons in Hex' as [E|E]; [congruence|done].
    + rewrite <- app_assoc, last_cons, fmap_cons.
      unfold object_of_row at 2. rewrite El. simpl.
      by destruct (last rows).
  - destruct (decide (Exists _ (r :: rows))) as [Hex'|Hex']; [done|].
    exfalso. apply Hex'. by apply Exists_cons_hd.
Qed.

Lemma xml_create_func_cases (xml_dir image_folder image_name
    image_path_ab s0 s1 s2 : string) (rows : list txt_row) :
  xml_create_func xml_dir image_folder image_name image_path_ab
                  [s0; s1; s2] rows
  = if decide (Exists (λ r, row_label r = None) rows) then Raise TypeError
    else match last rows with
         | None => Raise UnboundLocalError
         | Some r =>
             Ok (xml_dir +:+ "/" +:+ drop_last 4 (row_image r) +:+ ".xml",
                 {| ann_folder := image_folder;
                    ann_filename := image_name;
                    ann_path := image_path_ab;
                    ann_database := "Unknown";
                    ann_width := s1;
                    ann_height := s0;
                    ann_depth := s2;
                    ann_segmented := "0";
                    ann_objects := object_of_row <$> rows |})
         end.
Proof.
  unfold xml_create_func. simpl.
  rewrite xml_objects_loop_cases.
  destruct (decide (Exists _ rows)); [done|]. simpl.
  by destruct (last rows).
Qed.

(** X10. [xml_create_func] case by case, for an image size of three
    entries.  A row whose label is [None] makes it raise [TypeError]; with
    every label present and no row it raises [UnboundLocalError] (the file
    name is taken from the last row); otherwise it writes, under the name
    of the last row's image cut by four characters, a record with one
    object per row, in order, holding that row's label and box, with
    entry 1 of the image size as width and entry 0 as height.  In the two
    error cases no file is written. *)
Theorem xml_create_func_outcome (xml_dir image_folder image_name
    image_path_ab s0 s1 s2 : string) (rows : list txt_row) :
  xml_create_func xml_dir image_folder image_name image_path_ab
                  [s0; s1; s2] rows
  = if decide (Exists (λ r, row_label r = None) rows) then Raise TypeError
    else match last rows with
         | None => Raise UnboundLocalError
         | Some r =>
             Ok (xml_dir +:+ "/" +:+ drop_last 4 (row_image r) +:+ ".xml",
                 {| ann_folder := image_folder;
                    ann_filename := image_name;
                    ann_path := image_path_ab;
                    ann_database := "Unknown";
                    ann_width := s1;
                    ann_height := s0;
                    ann_depth := s2;
                    ann_segmented := "0";
                    ann_objects := object_of_row <$> rows |})
         end.
Proof. apply xml_create_func_cases. Qed.

(** X11. An image size with fewer than three entries makes
    [xml_create_func] raise [IndexError] before it looks at the rows. *)
Theorem xml_create_func_short_size (xml_dir image_folder image_name
    image_path_ab : string) (image_size : list string)
    (rows : list txt_row) :
  length image_size < 3 →
  xml_create_func xml_dir image_folder image_name image_path_ab
                  image_size rows = Raise IndexError.
Proof.
  intros Hlen. unfold xml_create_func.
  destruct image_size as [|s0 [|s1 [|s2 ?]]]; simpl in *; [done..|lia].
Qed.

Lemma xml_create_func_short_size_witness :
  xml_create_func "d" "f" "a.jpg" "p" ["480"; "640"]
                  [table_row "a.jpg" (Some "id12") (mkBox 0 0 1 1 0.95)]
  = Raise IndexError.
Proof. apply xml_create_func_short_size. simpl. lia. Defined.

(** ** The export on nested input with labels *)

Lemma zip_with_fmap_same {A B C D} (f : B → C → D) (g : A → B) (h : A → C)
    (l : list A) :
  zip_with f (g <$> l) (h <$> l) = (λ x, f (g x) (h x)) <$> l.
Proof. induction l as [|x l IH]; [done|]. simpl. f_equal. exact IH. Qed.

Lemma label_of_None (c : nat) : label_of c = None ↔ ¬ 1 ≤ c ≤ 7.
Proof.
  unfold label_of. case_decide as Hc; [|done].
  split; [|done]. intros Hnone.
  apply lookup_ge_None in Hnone. simpl in Hnone. lia.
Qed.

Lemma drop_last_short (k : nat) (s : string) :
  String.length s ≤ k → drop_last k s = EmptyString.
Proof.
  intros Hk. unfold drop_last. rewrite length_chars.
  by replace (String.length s - k) with 0 by lia.
Qed.

Section nested_export.
Context `{Collaborators}.

Lemma unpack_nested cls_boxes cls_segms cls_keyps :
  ∃ boxes segms keyps,
    unpack (ClsFormat cls_boxes cls_segms cls_keyps)
    = (boxes, segms, keyps, Some (classes_spec cls_boxes))
    ∧ default [] boxes = concat cls_boxes.
Proof.
  unfold unpack, convert_from_cls_format.
  rewrite classes_loop_classes_spec.
  eexists _, _, _. split; [reflexivity|].
  case_decide as Hne; simpl; [apply concat_nonempty_filter|].
  rewrite <- concat_nonempty_filter.
  destruct (filter _ cls_boxes); [done | simpl in Hne; lia].
Qed.

Lemma length_classes_spec {B} (cls_boxes : list (list B)) :
  length (classes_spec cls_boxes) = length (concat cls_boxes).
Proof.
  rewrite length_concat_sum. unfold classes_spec.
  apply (length_classes_spec_from 0).
Qed.

Lemma plt_body_labels_total boxes segms keypoints cls thresh kp_thresh i st :
  i < length boxes → i < length cls →
  ∃ st', plt_body boxes segms keypoints (Some cls) thresh kp_thresh None
                  true i st = Ok st'.
Proof.
  intros Hi Hc. unfold plt_body.
  rewrite getitem_lookup_total by done. simpl.
  case_decide; [by eexists|].
  rewrite getitem_lookup_total by done. simpl.
  destruct segms as [ss|]; [case_decide|]; by eexists.
Qed.

Lemma plt_loop_labels_total boxes segms keypoints cls thresh kp_thresh
    inds st :
  Forall (λ i, i < length boxes ∧ i < length cls) inds →
  ∃ st', for_each (plt_body boxes segms keypoints (Some cls) thresh
                            kp_thresh None true) inds st = Ok st'.
Proof.
  intros Hinds. revert st.
  induction Hinds as [|i inds [Hi Hc] _ IH]; intros st; [by eexists|].
  simpl.
  destruct (plt_body_labels_total boxes segms keypoints cls thresh kp_thresh
              i st Hi Hc) as [st1 ->].
  simpl. apply IH.
Qed.

(** The state after the rendering pass on nested input with labels. *)
Lemma plt_paint_nested boxes segms keypoints cls thresh kp_thresh :
  length cls = length (default [] boxes) →
  let bs := default [] boxes in
  let kept := filter (passes bs thresh) (paint_order bs) in
  ∃ st,
    plt_paint boxes segms keypoints (Some cls) thresh kp_thresh None true
    = Ok st
    ∧ drop 1 (temp_boxes st) = (bs !!!.) <$> kept
    ∧ temp_classify_id_list st = (cls !!!.) <$> kept.
Proof.
  intros Hlen bs kept. rewrite plt_paint_loop.
  edestruct (plt_loop_labels_total (default [] boxes) segms keypoints cls
               thresh kp_thresh (paint_order (default [] boxes)))
    as [st Hloop].
  { eapply Forall_impl; [apply paint_order_in_range|].
    intros i Hi. simpl in Hi. split; [done | by rewrite Hlen]. }
  exists st. split; [exact Hloop|].
  apply plt_loop_inv in Hloop as (_ & Hb & Hc & _);
    [|apply paint_order_in_range].
  simpl in Hb, Hc. split; [by rewrite Hb|].
  destruct Hc as (ids & -> & Hall). fold bs kept in Hall.
  clear -Hall. induction Hall as [|i c kept' ids' (cls' & [= <-] & Hc) _ IH];
    [done|].
  simpl. rewrite IH. f_equal.
  symmetry. by apply list_lookup_total_correct.
Qed.

(** What [vis_one_image] does after the rendering pass, on nested input
    with labels and no dataset. *)
Lemma vis_one_image_nested im im_name output_dir cls_boxes cls_segms
    cls_keyps thresh kp_thresh out_when_no_box :
  let bs := concat cls_boxes in
  let classes := classes_spec cls_boxes in
  let kept := filter (passes bs thresh) (paint_order bs) in
  let rows :=
    (λ i, table_row (basename im_name) (label_of (classes !!! i))
                    (bs !!! i)) <$> kept in
  kept ≠ [] →
  ∃ fig,
    vis_one_image im im_name output_dir
                  (ClsFormat cls_boxes cls_segms cls_keyps) thresh kp_thresh
                  None true out_when_no_box
    = '(temp_xmlfile, doc) ←
        xml_create_func xml_path images_folder (basename im_name)
          (image_path +:+ images_folder +:+ "/" +:+ basename im_name)
          [pretty im.1.1; pretty im.1.2; pretty im.2] rows;
      Ok (Some {| xml_file := temp_xmlfile;
                  xml_doc := doc;
                  savefig_path := path_join output_dir (basename im_name);
                  figure := fig |}).
Proof.
  intros bs classes kept rows Hkept. unfold vis_one_image.
  destruct (unpack_nested cls_boxes cls_segms cls_keyps)
    as (boxes & segms & keyps & -> & Hbs).
  assert (Hexit : nothing_to_render boxes thresh = false).
  { destruct (nothing_to_render boxes thresh) eqn:En; [|done].
    apply nothing_to_render_kept in En. rewrite Hbs in En. done. }
  rewrite Hexit. cbn [andb].
  destruct (plt_paint_nested boxes segms keyps (classes_spec cls_boxes)
              thresh kp_thresh) as (st & -> & Hb & Hc).
  { by rewrite Hbs, length_classes_spec. }
  exists (ax st). cbn [mbind result_bind].
  rewrite Hb, Hc, Hbs, id_map_func_fmap, txt_file_func_cases.
  fold bs classes kept label_of.
  rewrite decide_False by (by destruct kept).
  rewrite decide_True by (by rewrite !length_fmap).
  rewrite <- list_fmap_compose, zip_with_fmap_same.
  cbn [mbind result_bind]. by rewrite splitext_join.
Qed.


(** X13. On nested input with [show_class] set and no dataset, a
    detection that passes the score test with a class index outside
    [1..7] (class 0 included) makes [vis_one_image] raise [TypeError]: its
    label is [None] and the record cannot hold it.  No annotation and no
    image are written, for this detection or any other. *)
Theorem vis_one_image_unmapped_class (im : nat * nat * nat)
    (im_name output_dir : string) (cls_boxes : list (list Box))
    (cls_segms : option (list (list Segm)))
    (cls_keyps : option (list (list Kps))) (thresh kp_thresh : Q)
    (out_when_no_box : bool) (i : nat) :
  let bs := concat cls_boxes in
  i < length bs →
  (thresh <= score (bs !!! i))%Q →
  ¬ 1 ≤ classes_spec cls_boxes !!! i ≤ 7 →
  vis_one_image im im_name output_dir
                (ClsFormat cls_boxes cls_segms cls_keyps) thresh kp_thresh
                None true out_when_no_box = Raise TypeError.
Proof.
  intros bs Hi Hpass Hclass.
  assert (Hkept : i ∈ filter (passes bs thresh) (paint_order bs))
    by by apply kept_elem_of.
  destruct (vis_one_image_nested im im_name output_dir cls_boxes cls_segms
              cls_keyps thresh kp_thresh out_when_no_box)
    as [fig ->].
  { fold bs. intros E. rewrite E in Hkept. by apply elem_of_nil in Hkept. }
  fold bs. rewrite xml_create_func_cases.
  rewrite decide_True; [done|].
  apply Exists_exists. eexists. split.
  - apply list_elem_of_fmap. by exists i.
  - simpl. by apply label_of_None.
Qed.
End nested_export.


Lemma vis_one_image_unmapped_class_witness :
  @vis_one_image stable_collaborators (480, 640, 3) "/imgs/a.jpg" "out"
                 (ClsFormat [[mkBox 0 0 10 10 0.95]] None None) 0.9 2 None
                 true false
  = Raise TypeError.
Proof.
  apply (@vis_one_image_unmapped_class stable_collaborators _ _ _ _ _ _ _ _
           _ 0).
  - simpl. lia.
  - by vm_compute.
  - simpl. lia.
Defined.

(** ** Where the files go *)

Section file_places.
Context `{Collaborators}.

(** X14. The path [fig.savefig] is called with is [output_dir] joined
    with the base name of [im_name], extension included: splitting the
    extension off and putting it back gives the base name again, and,
    the base name holding no ["/"], the path is the base name alone when
    [output_dir] is empty, and otherwise [output_dir], a ["/"] unless
    [output_dir] ends in one, and the base name. *)
Theorem savefig_path_in_output_dir (im : nat * nat * nat)
    (im_name output_dir : string) (dets : detections) (thresh kp_thresh : Q)
    (dataset : option (list string)) (show_class out_when_no_box : bool)
    (o : outputs) :
  vis_one_image im im_name output_dir dets thresh kp_thresh dataset
                show_class out_when_no_box = Ok (Some o) →
  ("/"%char ∉ chars (basename im_name))
  ∧ savefig_path o
    = if decide (output_dir = EmptyString) then basename im_name
      else if decide (last (chars output_dir) = Some "/"%char)
           then output_dir +:+ basename im_name
           else output_dir +:+ "/" +:+ basename im_name.
Proof.
  intros Hcall. apply vis_one_image_inv in Hcall as (_ & _ & _ & Himage).
  rewrite splitext_join in Himage.
  pose proof (basename_no_slash im_name) as Hbase.
  split; [done|]. rewrite Himage. by apply path_join_relative.
Qed.

(** X15. The annotation file is named after the base name of [im_name]
    without its last four characters, in one fixed directory: two images
    whose base names agree up to the last four characters (the same name
    in two folders, [a.jpg] and [a.png]) get the same annotation file,
    whatever their [output_dir], and an image whose base name has at most
    four characters gets the file [.xml]. *)
Theorem xml_file_collisions (im1 im2 : nat * nat * nat)
    (im_name1 im_name2 output_dir1 output_dir2 : string)
    (dets1 dets2 : detections) (thresh1 thresh2 kp_thresh1 kp_thresh2 : Q)
    (dataset1 dataset2 : option (list string))
    (show_class1 show_class2 out_when_no_box1 out_when_no_box2 : bool)
    (o1 o2 : outputs) :
  vis_one_image im1 im_name1 output_dir1 dets1 thresh1 kp_thresh1 dataset1
                show_class1 out_when_no_box1 = Ok (Some o1) →
  vis_one_image im2 im_name2 output_dir2 dets2 thresh2 kp_thresh2 dataset2
                show_class2 out_when_no_box2 = Ok (Some o2) →
  (drop_last 4 (basename im_name1) = drop_last 4 (basename im_name2) →
   xml_file o1 = xml_file o2)
  ∧ (String.length (basename im_name1) ≤ 4 →
     xml_file o1 = xml_path +:+ "/.xml").
Proof.
  intros Hcall1 Hcall2.
  apply vis_one_image_inv in Hcall1 as (_ & _ & Hxml1 & _).
  apply vis_one_image_inv in Hcall2 as (_ & _ & Hxml2 & _).
  split.
  - intros E. by rewrite Hxml1, Hxml2, E.
  - intros Hshort. by rewrite Hxml1, drop_last_short.
Qed.

End file_places.

Lemma savefig_path_in_output_dir_witness :
  ∃ o,
    @vis_one_image stable_collaborators (480, 640, 3) "/imgs/a.jpg" "out"
                   one_detection 0.9 2 None true false = Ok (Some o)
    ∧ savefig_path o = "out/a.jpg".
Proof.
  eexists. split; [by vm_compute|].
  etrans;
    [ refine (proj2 (@savefig_path_in_output_dir stable_collaborators
                       (480, 640, 3) "/imgs/a.jpg" "out" one_detection
                       0.9 2 None true false _ _));
      by vm_compute
    | by vm_compute ].
Defined.

Lemma xml_file_collisions_witness :
  ∃ o1 o2,
    @vis_one_image stable_collaborators (480, 640, 3) "/day1/a.jpg" "out1"
                   one_detection 0.9 2 None true false = Ok (Some o1)
    ∧ @vis_one_image stable_collaborators (480, 640, 3) "/day2/a.png" "out2"
                     three_detections 0.9 2 None true false = Ok (Some o2)
    ∧ xml_file o1 = xml_file o2.
Proof.
  eexists _, _. split; [by vm_compute|]. split; [by vm_compute|].
  refine (proj1 (@xml_file_collisions stable_collaborators
                   (480, 640, 3) (480, 640, 3) "/day1/a.jpg" "/day2/a.png"
                   "out1" "out2" one_detection three_detections
                   0.9 0.9 2 2 None None true true false false _ _ _ _) _);
    by vm_compute.
Defined.

(** ** The paint order when no two areas are equal *)

(** X17. When no two detections have the same area, the paint order does
    not depend on the sort that [np.argsort] runs: any two sorts that
    order the keys give the same paint order. *)
Theorem paint_order_determined (C1 C2 : Collaborators) (boxes : list Box) :
  (∀ i j, i < length boxes → j < length boxes →
          (area (boxes !!! i) == area (boxes !!! j))%Q → i = j) →
  @paint_order C1 boxes = @paint_order C2 boxes.
Proof.
  intros Hdistinct.
  apply (StronglySorted_unique_strong
           (λ i j, (area (boxes !!! j) <= area (boxes !!! i))%Q)).
  - intros i j Hi Hj Hij Hji.
    apply (@paint_order_lt C1) in Hi. apply (@paint_order_lt C2) in Hj.
    apply Hdistinct; [done..|]. by apply Qle_antisym.
  - apply (@paint_order_sorted C1).
  - apply (@paint_order_sorted C2).
  - by rewrite (@paint_order_perm C1), (@paint_order_perm C2).
Qed.

Lemma paint_order_determined_witness :
  @paint_order stable_collaborators three_boxes
  = @paint_order tie_reversing_collaborators three_boxes.
Proof.
  apply paint_order_determined.
  intros i j Hi Hj. simpl in Hi, Hj.
  assert (Hi' : i = 0 ∨ i = 1 ∨ i = 2) by lia.
  assert (Hj' : j = 0 ∨ j = 1 ∨ j = 2) by lia.
  destruct Hi' as [->|[->| ->]], Hj' as [->|[->| ->]];
    try done; by vm_compute.
Defined.

(** ** Largest first, once each *)

Lemma StronglySorted_filter {A} (R : A → A → Prop) (P : A → Prop)
    `{!∀ x, Decision (P x)} (l : list A) :
  StronglySorted R l → StronglySorted R (filter P l).
Proof.
  induction 1 as [|x l _ IH Hx]; [constructor|].
  rewrite filter_cons. case_decide; [|done].
  constructor; [done|].
  apply Forall_forall. intros y [_ Hy]%list_elem_of_filter.
  rewrite Forall_forall in Hx. by apply Hx.
Qed.

Section largest_first.
Context `{Collaborators}.

Lemma kept_sorted_nodup bs thresh :
  StronglySorted (λ i j, (area (bs !!! j) <= area (bs !!! i))%Q)
                 (filter (passes bs thresh) (paint_order bs))
  ∧ NoDup (filter (passes bs thresh) (paint_order bs)).
Proof.
  split.
  - apply StronglySorted_filter, paint_order_sorted.
  - apply NoDup_filter. rewrite paint_order_perm. apply NoDup_seq.
Qed.

(** X19. What either entry point paints is painted largest first and
    once: along the canvas the box area never increases, and no detection
    appears twice. *)
Theorem painted_largest_first (dets : detections) (thresh kp_thresh : Q)
    (dataset : option (list string)) (show_class : bool) :
  let bs := detected_boxes dets in
  let by_area i j := (area (bs !!! j) <= area (bs !!! i))%Q in
  (∀ show_box c,
     vis_one_image_opencv dets thresh kp_thresh show_box dataset show_class
     = Ok c →
     StronglySorted by_area (rendered c) ∧ NoDup (rendered c))
  ∧ (∀ im im_name output_dir out_when_no_box o,
       vis_one_image im im_name output_dir dets thresh kp_thresh dataset
                     show_class out_when_no_box = Ok (Some o) →
       StronglySorted by_area (rendered (figure o))
       ∧ NoDup (rendered (figure o))).
Proof.
  intros bs by_area. split.
  - intros show_box c Hcall.
    apply vis_one_image_opencv_rendered in Hcall. rewrite Hcall.
    apply kept_sorted_nodup.
  - intros im im_name output_dir out_when_no_box o Hcall.
    apply vis_one_image_inv in Hcall as (Hr & _). rewrite Hr.
    apply kept_sorted_nodup.
Qed.
End largest_first.

Lemma painted_largest_first_witness :
  ∃ c,
    @vis_one_image_opencv stable_collaborators three_detections 0.1 2 true
                          None true = Ok c
    ∧ rendered c = [0; 2; 1]
    ∧ NoDup (rendered c).
Proof.
  eexists. split; [by vm_compute|]. split; [by vm_compute|].
  destruct (@painted_largest_first stable_collaborators three_detections
              0.1 2 None true) as [Hcv _].
  exact (proj2 (Hcv true _ eq_refl)).
Defined.
